(** * Approximate Bijective Correspondence (ABC) loss of [isolating_factors/mnist.ipynb]

    A shallow embedding of the loss helpers of the notebook
    ([pairwise_l2_distance], [pairwise_l1_distance], [pairwise_linf_distance],
    [get_scaled_similarity], [align_pair_of_sequences]) and of the TensorFlow
    operations they call, followed by the properties of that code.

    Numbers.  The notebook computes on float32 tensors.  The embedding uses
    exact real arithmetic on finite values and keeps the three IEEE special
    values (+inf, -inf, NaN) with their propagation rules, so that degenerate
    computations (0/0, x/0, reductions of empty axes) behave as the framework
    does.  Rounding, overflow, underflow and the sign of zero are not
    modelled.  The properties are stated accordingly: they follow the
    operations in the order the code applies them, and where a result needs
    the computed values to be numbers, the hypothesis bears on the tensor the
    code returns rather than on its inputs. *)

From Stdlib Require Import Reals Lra Lia String Bool Arith List.
Import ListNotations.

Open Scope R_scope.

(** ** Scalars: reals extended with the IEEE special values *)

Module XR.

Inductive xreal : Type :=
| Fin (x : R)
| PInf
| NInf
| NaN.

Definition xneg (a : xreal) : xreal :=
  match a with
  | Fin x => Fin (- x)
  | PInf => NInf
  | NInf => PInf
  | NaN => NaN
  end.

Definition xadd (a b : xreal) : xreal :=
  match a, b with
  | NaN, _ | _, NaN => NaN
  | Fin x, Fin y => Fin (x + y)
  | PInf, NInf | NInf, PInf => NaN
  | PInf, _ | _, PInf => PInf
  | NInf, _ | _, NInf => NInf
  end.

Definition xsub (a b : xreal) : xreal := xadd a (xneg b).

(** An infinity [i] multiplied by the finite [x]: NaN at zero, [i] or its
    opposite by the sign of [x]. *)
Definition inf_times (i : xreal) (x : R) : xreal :=
  if Req_dec_T x 0 then NaN
  else if Rlt_dec 0 x then i else xneg i.

Definition xmul (a b : xreal) : xreal :=
  match a, b with
  | NaN, _ | _, NaN => NaN
  | Fin x, Fin y => Fin (x * y)
  | Fin x, PInf => inf_times PInf x
  | Fin x, NInf => inf_times NInf x
  | PInf, Fin y => inf_times PInf y
  | NInf, Fin y => inf_times NInf y
  | PInf, PInf | NInf, NInf => PInf
  | PInf, NInf | NInf, PInf => NInf
  end.

(** Division: a finite value over zero is an infinity of its sign, 0/0 and
    inf/inf are NaN. *)
Definition xdiv (a b : xreal) : xreal :=
  match a, b with
  | NaN, _ | _, NaN => NaN
  | Fin x, Fin y =>
      if Req_dec_T y 0 then inf_times PInf x else Fin (x / y)
  | Fin _, PInf | Fin _, NInf => Fin 0
  | PInf, Fin y => if Rlt_dec y 0 then NInf else PInf
  | NInf, Fin y => if Rlt_dec y 0 then PInf else NInf
  | PInf, PInf | PInf, NInf | NInf, PInf | NInf, NInf => NaN
  end.

Definition xmax (a b : xreal) : xreal :=
  match a, b with
  | NaN, _ | _, NaN => NaN
  | Fin x, Fin y => Fin (Rmax x y)
  | PInf, _ | _, PInf => PInf
  | NInf, c | c, NInf => c
  end.

Definition xabs (a : xreal) : xreal :=
  match a with
  | Fin x => Fin (Rabs x)
  | PInf | NInf => PInf
  | NaN => NaN
  end.

Definition xsqrt (a : xreal) : xreal :=
  match a with
  | Fin x => if Rlt_dec x 0 then NaN else Fin (sqrt x)
  | PInf => PInf
  | NInf | NaN => NaN
  end.

Definition xexp (a : xreal) : xreal :=
  match a with
  | Fin x => Fin (exp x)
  | PInf => PInf
  | NInf => Fin 0
  | NaN => NaN
  end.

Definition xlog (a : xreal) : xreal :=
  match a with
  | Fin x =>
      if Rlt_dec x 0 then NaN
      else if Req_dec_T x 0 then NInf else Fin (ln x)
  | PInf => PInf
  | NInf | NaN => NaN
  end.

End XR.
Export XR.

(** ** Tensors and the TensorFlow operations the notebook calls *)

(** A rank-2 tensor of static shape [length rows, ncols], stored row by row.
    The column count is kept beside the rows because it survives an empty
    stack ([tf.matmul] of an [m x 0] by a [0 x d] tensor is [m x d]). *)
Record tensor2 : Type := mkT { ncols : nat; rows : list (list xreal) }.

Definition shape0 (t : tensor2) : nat := length (rows t).

(** Every row has the declared number of columns. *)
Definition well_shaped (t : tensor2) : Prop :=
  Forall (fun r => length r = ncols t) (rows t).

(** A tensor whose entries are all finite: the image of a real matrix. *)
Definition of_reals (d : nat) (m : list (list R)) : tensor2 :=
  mkT d (map (map Fin) m).

Module TF.

(** Elementwise combination of two equally shaped vectors.  TensorFlow raises
    on operands of different lengths; the helpers are meant for stacks of one
    column count, and on other operands this definition stops at the shorter
    one. *)
Definition map2 {A B C : Type} (f : A -> B -> C) (l1 : list A) (l2 : list B) : list C :=
  map (fun p => f (fst p) (snd p)) (combine l1 l2).

(** [tf.reduce_sum] along one axis. *)
Definition reduce_sum (l : list xreal) : xreal := fold_right xadd (Fin 0) l.

(** [tf.reduce_max] along one axis; the maximum of an empty axis is -inf. *)
Definition reduce_max (l : list xreal) : xreal := fold_right xmax NInf l.

(** [tf.square]. *)
Definition square (a : xreal) : xreal := xmul a a.

(** Inner product of two rows. *)
Definition dot (u v : list xreal) : xreal := reduce_sum (map2 xmul u v).

(** Column [k] of a tensor. *)
Definition column (k : nat) (b : tensor2) : list xreal :=
  map (fun r => nth k r (Fin 0)) (rows b).

(** [tf.matmul(a, b)]: entry (i, k) is the sum over j of a[i][j] * b[j][k]. *)
Definition matmul (a b : tensor2) : tensor2 :=
  mkT (ncols b)
      (map (fun r => map (fun k => dot r (column k b)) (seq 0 (ncols b))) (rows a)).

(** [tf.matmul(a, b, transpose_b=True)]: entry (i, j) is the inner product of
    row i of [a] and row j of [b]. *)
Definition matmul_transpose_b (a b : tensor2) : tensor2 :=
  mkT (shape0 b) (map (fun r => map (fun r' => dot r r') (rows b)) (rows a)).

(** [tf.nn.softmax] of one row of logits: exp(logits) / reduce_sum(exp(logits)). *)
Definition softmax_row (l : list xreal) : list xreal :=
  let e := map xexp l in
  let s := reduce_sum e in
  map (fun x => xdiv x s) e.

(** [tf.nn.softmax(t, axis=1)]. *)
Definition softmax (t : tensor2) : tensor2 :=
  mkT (ncols t) (map softmax_row (rows t)).

(** [tf.linalg.normalize(t, ord=2, axis=-1)]: each row divided by its L2 norm
    (the second component of the pair, the norms, is dropped by the caller). *)
Definition l2_norm (r : list xreal) : xreal := xsqrt (reduce_sum (map square r)).

Definition normalize_row (r : list xreal) : list xreal :=
  map (fun x => xdiv x (l2_norm r)) r.

Definition linalg_normalize (t : tensor2) : tensor2 :=
  mkT (ncols t) (map normalize_row (rows t)).

(** [tf.range(n)]. *)
Definition range (n : nat) : list nat := seq 0 n.

(** [tf.keras.losses.sparse_categorical_crossentropy(labels, logits,
    from_logits=True)]: for each row, minus the log of the softmax probability
    of the labelled class.  Meant for logits with at least one class;
    TensorFlow rejects logits of shape [0, 0], for which this definition
    yields the empty list. *)
Definition sparse_categorical_crossentropy (labels : list nat) (logits : tensor2)
  : list xreal :=
  map2 (fun y l => xneg (xlog (nth y (softmax_row l) NaN))) labels (rows logits).

(** [tf.reduce_mean] of a rank-1 tensor. *)
Definition reduce_mean (l : list xreal) : xreal :=
  xdiv (reduce_sum l) (Fin (INR (length l))).

(** Scalar-by-tensor product, tensor-by-scalar quotient and the other
    elementwise operations with a broadcast scalar. *)
Definition tmap (f : xreal -> xreal) (t : tensor2) : tensor2 :=
  mkT (ncols t) (map (map f) (rows t)).

Definition scale (c : xreal) (t : tensor2) : tensor2 := tmap (xmul c) t.
Definition tdiv (t : tensor2) (c : xreal) : tensor2 := tmap (fun x => xdiv x c) t.
Definition tadd (t : tensor2) (c : xreal) : tensor2 := tmap (fun x => xadd x c) t.
Definition tsqrt (t : tensor2) : tensor2 := tmap xsqrt t.
Definition maximum (t : tensor2) (c : xreal) : tensor2 := tmap (fun x => xmax x c) t.

End TF.

(** ** Exceptions and the notebook's global namespace *)

Inductive exn : Type :=
| NameError (name : string)
| ValueError (msg : string).

Inductive result (A : Type) : Type :=
| Ok (a : A)
| Raise (e : exn).
Arguments Ok {A} a.
Arguments Raise {A} e.

Definition bind {A B : Type} (c : result A) (k : A -> result B) : result B :=
  match c with
  | Ok a => k a
  | Raise e => Raise e
  end.

Notation "x <- c ;; k" := (bind c (fun x => k))
  (at level 61, c at next level, right associativity).

(** The module-level names a helper reads.  [eps] is the only free variable of
    the loss helpers besides [tf]. *)
Record globals : Type := mkGlobals { g_eps : option xreal }.

(** Reading the global [eps]: a [NameError] when the name is unbound. *)
Definition lookup_eps (g : globals) : result xreal :=
  match g_eps g with
  | Some e => Ok e
  | None => Raise (NameError "eps")
  end.

(** The namespace the notebook builds: its cells bind [stack_size],
    [num_latent_dims], [similarity_type], [test_digit], [optimizer_name], [lr],
    [num_steps], [temperature], [imgs_to_plot], [output_plots_during_training],
    [output_loss_every] and the data sets, model and helpers; no cell and no
    import binds [eps]. *)
Definition notebook_globals : globals := mkGlobals None.

(** ** The loss helpers of the notebook *)

Module ABC.
Import TF.

(** [pairwise_l2_distance]: squared Euclidean distances, clamped at zero. *)
Definition pairwise_l2_distance (embs1 embs2 : tensor2) : tensor2 :=
  let norm1 := map (fun r => reduce_sum (map square r)) (rows embs1) in
  let norm2 := map (fun r => reduce_sum (map square r)) (rows embs2) in
  let prod := matmul_transpose_b embs1 embs2 in
  let raw :=
    map2 (fun n1 prow =>
            map2 (fun n2 p => xsub (xadd n1 n2) (xmul (Fin 2) p)) norm2 prow)
         norm1 (rows prod) in
  maximum (mkT (shape0 embs2) raw) (Fin 0).

(** The tiled and broadcast difference shared by the L1 and L-infinity
    distances: entry (i, j) is the vector |embs1[i] - embs2[j]|. *)
Definition abs_differences (embs1 embs2 : tensor2) : list (list (list xreal)) :=
  let ss2 := shape0 embs2 in
  let embs1_tiled := map (fun r => repeat r ss2) (rows embs1) in
  map (fun plane => map2 (fun u v => map xabs (map2 xsub u v)) plane (rows embs2))
      embs1_tiled.

(** [pairwise_l1_distance]. *)
Definition pairwise_l1_distance (embs1 embs2 : tensor2) : tensor2 :=
  mkT (shape0 embs2) (map (map reduce_sum) (abs_differences embs1 embs2)).

(** [pairwise_linf_distance]. *)
Definition pairwise_linf_distance (embs1 embs2 : tensor2) : tensor2 :=
  mkT (shape0 embs2) (map (map reduce_max) (abs_differences embs1 embs2)).

(** [get_scaled_similarity]: the branch on the metric name, then the division
    by the temperature. *)
Definition get_scaled_similarity (g : globals) (embs1 embs2 : tensor2)
    (similarity_type : string) (temperature : xreal) : result tensor2 :=
  similarity <-
    (if (similarity_type =? "l2sq")%string then
       Ok (scale (Fin (-1)) (pairwise_l2_distance embs1 embs2))
     else if (similarity_type =? "l2")%string then
       let d := pairwise_l2_distance embs1 embs2 in
       eps <- lookup_eps g ;;
       Ok (scale (Fin (-1)) (tsqrt (tadd d eps)))
     else if (similarity_type =? "l1")%string then
       Ok (scale (Fin (-1)) (pairwise_l1_distance embs1 embs2))
     else if (similarity_type =? "linf")%string then
       Ok (scale (Fin (-1)) (pairwise_linf_distance embs1 embs2))
     else if (similarity_type =? "cosine")%string then
       let embs1 := linalg_normalize embs1 in
       let embs2 := linalg_normalize embs2 in
       Ok (matmul_transpose_b embs1 embs2)
     else
       Raise (ValueError ("Unknown similarity type: " ++ similarity_type)%string)) ;;
  Ok (tdiv similarity temperature).

(** [align_pair_of_sequences]. *)
Definition align_pair_of_sequences (g : globals) (embs1 embs2 : tensor2)
    (similarity_type : string) (temperature : xreal) : result xreal :=
  let ss1 := shape0 embs1 in
  sim_12 <- get_scaled_similarity g embs1 embs2 similarity_type temperature ;;
  let softmaxed_sim_12 := softmax sim_12 in
  let nn_embs := matmul softmaxed_sim_12 embs2 in
  sim_21 <- get_scaled_similarity g nn_embs embs1 similarity_type temperature ;;
  let loss := sparse_categorical_crossentropy (range ss1) sim_21 in
  Ok (reduce_mean loss).

End ABC.

(** ** The reference loss of the cycle-consistency computation *)

(** The last step of the algorithm as the specification words it (step 5 of
    its section 4.2), kept apart from the embedding of the code above: the
    categorical cross-entropy of a row of logits against one target label, and
    the mean over the m rows. *)
Module Reference.
Import TF.

Definition cross_entropy (logits : list xreal) (label : nat) : xreal :=
  xneg (xlog (nth label (softmax_row logits) NaN)).

Definition mean_over (m : nat) (f : nat -> xreal) : xreal :=
  xdiv (reduce_sum (map f (seq 0 m))) (Fin (INR m)).

End Reference.

(** ** Notions used to state and prove the properties *)

Section Notions.
Import TF ABC.

(** The value of the local variable [softmaxed_sim_12] of
    [align_pair_of_sequences], the soft assignment: the first two statements
    of that function, up to the softmax. *)
Definition softmaxed_sim_12 (g : globals) (embs1 embs2 : tensor2)
    (similarity_type : string) (temperature : xreal) : result tensor2 :=
  sim_12 <- get_scaled_similarity g embs1 embs2 similarity_type temperature ;;
  Ok (softmax sim_12).

(** The statements of [align_pair_of_sequences] that follow the softmax, as a
    function of the soft assignment. *)
Definition loss_of_soft_assignment (g : globals) (embs1 embs2 : tensor2)
    (similarity_type : string) (temperature : xreal) (p : tensor2) : result xreal :=
  sim_21 <- get_scaled_similarity g (matmul p embs2) embs1 similarity_type temperature ;;
  Ok (reduce_mean (sparse_categorical_crossentropy (range (shape0 embs1)) sim_21)).

(** The tensor whose entry (i, j) is [f] of row i of [a] and row j of [b]:
    the shape every pairwise distance of the notebook has. *)
Definition pairwise (f : list xreal -> list xreal -> xreal) (a b : tensor2) : tensor2 :=
  mkT (shape0 b) (map (fun u => map (fun v => f u v) (rows b)) (rows a)).

(** A tensor with [m] rows of [n] entries each. *)
Definition has_shape (t : tensor2) (m n : nat) : Prop :=
  shape0 t = m /\ ncols t = n /\ well_shaped t.

(** Entry (i, j) of a tensor; NaN outside its shape. *)
Definition entry (t : tensor2) (i j : nat) : xreal :=
  nth j (nth i (rows t) []) NaN.

(** The squared L2 norm of a row, and the entries of the four distance
    matrices as functions of one row of each stack. *)
Definition sum_squares (u : list xreal) : xreal := reduce_sum (map square u).

Definition l2sq_entry (u v : list xreal) : xreal :=
  xmax (xsub (xadd (sum_squares u) (sum_squares v)) (xmul (Fin 2) (dot u v))) (Fin 0).

Definition l1_entry (u v : list xreal) : xreal :=
  reduce_sum (map xabs (map2 xsub u v)).

Definition linf_entry (u v : list xreal) : xreal :=
  reduce_max (map xabs (map2 xsub u v)).

Definition cosine_entry (u v : list xreal) : xreal :=
  dot (normalize_row u) (normalize_row v).

(** Entry (i, j) of the scaled similarity, as a function of row i of the
    first tensor and row j of the second; [eps] is the value bound to the
    global of that name (read by the l2 branch only). *)
Definition similarity_entry (eps : xreal) (similarity_type : string)
    (temperature : xreal) (u v : list xreal) : xreal :=
  xdiv (if (similarity_type =? "l2sq")%string then xmul (Fin (-1)) (l2sq_entry u v)
        else if (similarity_type =? "l2")%string then
          xmul (Fin (-1)) (xsqrt (xadd (l2sq_entry u v) eps))
        else if (similarity_type =? "l1")%string then xmul (Fin (-1)) (l1_entry u v)
        else if (similarity_type =? "linf")%string then xmul (Fin (-1)) (linf_entry u v)
        else cosine_entry u v)
       temperature.

(** The metric names whose branch reads no global. *)
Definition eps_free_metrics : list string := ["l2sq"; "l1"; "linf"; "cosine"]%string.

(** The five metric names [get_scaled_similarity] has a branch for. *)
Definition supported_metrics : list string :=
  ["l2sq"; "l2"; "l1"; "linf"; "cosine"]%string.

(** What [get_scaled_similarity] computes for every metric name and every
    namespace: either an exception, or a function of two rows that fills the
    whole matrix. *)
Definition entry_function (g : globals) (similarity_type : string)
    (temperature : xreal) : result (list xreal -> list xreal -> xreal) :=
  if (similarity_type =? "l2sq")%string then
    Ok (similarity_entry NaN "l2sq" temperature)
  else if (similarity_type =? "l2")%string then
    eps <- lookup_eps g ;; Ok (similarity_entry eps "l2" temperature)
  else if (similarity_type =? "l1")%string then
    Ok (similarity_entry NaN "l1" temperature)
  else if (similarity_type =? "linf")%string then
    Ok (similarity_entry NaN "linf" temperature)
  else if (similarity_type =? "cosine")%string then
    Ok (similarity_entry NaN "cosine" temperature)
  else Raise (ValueError ("Unknown similarity type: " ++ similarity_type)%string).

(** Sums, squared norms and inner products of real rows. *)
Definition Rsum (l : list R) : R := fold_right Rplus 0 l.

Definition Rsum_squares (u : list R) : R := Rsum (map (fun x => x * x) u).

Definition Rdot (u v : list R) : R := Rsum (map2 Rmult u v).

(** A probability vector: finite entries in (0, 1] that sum to 1. *)
Definition stochastic_row (row : list xreal) : Prop :=
  Forall (fun p => exists x, p = Fin x /\ 0 < x <= 1) row
  /\ reduce_sum row = Fin 1.

(** A scalar that is a number: neither an infinity nor NaN. *)
Definition finite (a : xreal) : Prop := exists x, a = Fin x.

(** A tensor all of whose entries are numbers. *)
Definition finite_tensor (t : tensor2) : Prop := Forall (Forall finite) (rows t).

(** A row that is stochastic within the tolerance [tol]: entries that are
    numbers of [0, 1], and a sum within [tol] of 1. *)
Definition stochastic_row_within (tol : R) (row : list xreal) : Prop :=
  Forall (fun p => exists x, p = Fin x /\ 0 <= x <= 1) row
  /\ exists s, reduce_sum row = Fin s /\ Rabs (s - 1) <= tol.

(** The inputs on which a metric yields finite similarities: rows of the
    declared positive length for linf (the maximum over an empty axis is
    -inf), rows of non-zero norm for cosine (0/0 is NaN). *)
Definition regular_rows (s : string) (u v : list R) : Prop :=
  (s = "linf"%string -> u <> [] /\ v <> [])
  /\ (s = "cosine"%string -> Rsum_squares u <> 0 /\ Rsum_squares v <> 0).

(** The same for a whole stack of rows of length [d]. *)
Definition regular_stack (s : string) (d : nat) (m : list (list R)) : Prop :=
  Forall (fun u => length u = d) m
  /\ (s = "linf"%string -> (1 <= d)%nat)
  /\ (s = "cosine"%string -> Forall (fun u => Rsum_squares u <> 0) m).

End Notions.

(** ** The cells of the notebook that call the helpers *)

Module Cells.
Import TF ABC.

(** The training cell: [loss = align_pair_of_sequences(embs1, embs2, ...)]
    followed by [loss += align_pair_of_sequences(embs2, embs1, ...)]. *)
Definition training_loss (g : globals) (embs1 embs2 : tensor2)
    (similarity_type : string) (temperature : xreal) : result xreal :=
  loss <- align_pair_of_sequences g embs1 embs2 similarity_type temperature ;;
  loss' <- align_pair_of_sequences g embs2 embs1 similarity_type temperature ;;
  Ok (xadd loss loss').

(** The comparison [a < b] of two scalars; false as soon as one is NaN. *)
Definition xltb (a b : xreal) : bool :=
  match a, b with
  | Fin x, Fin y => if Rlt_dec x y then true else false
  | NInf, Fin _ | NInf, PInf | Fin _, PInf => true
  | _, _ => false
  end.

Definition is_nan (a : xreal) : bool :=
  match a with NaN => true | _ => false end.

(** [tf.argmin] of a rank-1 tensor: a scan that keeps the running minimum and
    its index, a NaN giving way to the first value that is not one, so that
    the result is the index of the least value that is not NaN.  The operation
    fails on an empty tensor ([None]).  Among equal minima the scan keeps the
    first; TensorFlow leaves that choice open. *)
Fixpoint argmin_from (best_i : nat) (best : xreal) (i : nat) (l : list xreal) : nat :=
  match l with
  | [] => best_i
  | x :: l' =>
      if xltb x best || (is_nan best && negb (is_nan x))
      then argmin_from i x (S i) l'
      else argmin_from best_i best (S i) l'
  end.

Definition argmin (l : list xreal) : option nat :=
  match l with
  | [] => None
  | x :: l' => Some (argmin_from 0 x 1 l')
  end.

(** The slice [l[start:stop]] of a Python sequence or of the rows of a tensor
    (non-negative bounds; bounds past the end are clipped). *)
Definition py_slice {A : Type} (l : list A) (start stop : nat) : list A :=
  firstn (stop - start) (skipn start l).

Definition slice_rows (t : tensor2) (start stop : nat) : tensor2 :=
  mkT (ncols t) (py_slice (rows t) start stop).

(** The retrieval cell: the index in [other] of the embedding nearest to the
    first embedding of [template],
    [dists = pairwise_l2_distance(template[0:1], other)] then
    [min_ind = tf.argmin(dists[0])].  [None] when [dists[0]] or the argmin
    raises (an empty [template] or [other]). *)
Definition min_ind (template other : tensor2) : option nat :=
  let dists := pairwise_l2_distance (slice_rows template 0 1) other in
  match rows dists with
  | [] => None
  | dists_0 :: _ => argmin dists_0
  end.

(** [range(start, stop, step)] with non-negative bounds; [None] for the
    ValueError Python raises on a zero step.  [stop] iterations are enough for
    a positive step. *)
Fixpoint range_aux (fuel start stop step : nat) : list nat :=
  match fuel with
  | O => []
  | S fuel' =>
      if (start <? stop)%nat then start :: range_aux fuel' (start + step) stop step
      else []
  end.

Definition py_range (start stop step : nat) : option (list nat) :=
  if (step =? 0)%nat then None else Some (range_aux stop start stop step).

(** [tf.concat(values, 0)]; it raises on an empty list of tensors. *)
Definition tf_concat {A : Type} (values : list (list A)) : option (list A) :=
  match values with
  | [] => None
  | _ => Some (concat values)
  end.

(** The embedding loop of [display_pca_embs] (and of the two PCA cells): the
    model is called on the slices [plot_imgs[start_ind:start_ind+stack_size]]
    for [start_ind] in [range(0, len(plot_imgs), stack_size)], and the results
    are concatenated. *)
Definition embs_intermed {I E : Type} (model : list I -> list E)
    (plot_imgs : list I) (stack_size : nat) : option (list E) :=
  match py_range 0 (length plot_imgs) stack_size with
  | None => None
  | Some starts =>
      tf_concat
        (map (fun start_ind =>
                model (py_slice plot_imgs start_ind (start_ind + stack_size)))
             starts)
  end.

(** The data cell: the training sets are [ds[:test_digit] + ds[test_digit+1:]]. *)
Definition training_sets {A : Type} (ds : list A) (test_digit : nat) : list A :=
  py_slice ds 0 test_digit ++ py_slice ds (test_digit + 1) (length ds).

End Cells.

(** ** Further notions used by the properties of the cells and helpers *)

Section CoverageNotions.
Import TF ABC.

(** The value of the local variable [nn_embs] of [align_pair_of_sequences]:
    the soft nearest neighbours. *)
Definition nn_embs (g : globals) (embs1 embs2 : tensor2)
    (similarity_type : string) (temperature : xreal) : result tensor2 :=
  p <- softmaxed_sim_12 g embs1 embs2 similarity_type temperature ;;
  Ok (matmul p embs2).

(** The squared Euclidean, Manhattan and Chebyshev distances of two real rows. *)
Definition Rsquared_distance (u v : list R) : R :=
  Rsum (map2 (fun x y => (x - y) * (x - y)) u v).

Definition Rl1_distance (u v : list R) : R :=
  Rsum (map2 (fun x y => Rabs (x - y)) u v).

Definition Rlinf_distance (u v : list R) : R :=
  fold_right Rmax 0 (map2 (fun x y => Rabs (x - y)) u v).

(** The three metrics that negate a distance. *)
Definition distance_metrics : list string := ["l2sq"; "l1"; "linf"]%string.

(** The distance a metric name among l2sq, l1 and linf stands for. *)
Definition Rdistance (s : string) (u v : list R) : R :=
  if (s =? "l2sq")%string then Rsquared_distance u v
  else if (s =? "l1")%string then Rl1_distance u v
  else Rlinf_distance u v.

(** A scalar that is not below zero (a non-negative number, +inf or NaN), and
    one that is not above zero (a non-positive number, -inf or NaN). *)
Definition never_negative (a : xreal) : Prop :=
  match a with
  | Fin x => 0 <= x
  | NInf => False
  | PInf | NaN => True
  end.

Definition never_positive (a : xreal) : Prop :=
  match a with
  | Fin x => x <= 0
  | PInf => False
  | NInf | NaN => True
  end.

(** The loss as one expression of the entry function of the metric. *)
Definition loss_value (f : list xreal -> list xreal -> xreal) (a b : tensor2) : xreal :=
  reduce_mean
    (sparse_categorical_crossentropy (range (shape0 a))
       (pairwise f (matmul (softmax (pairwise f a b)) b) a)).

End CoverageNotions.

(** ** Arithmetic of the extended scalars *)

Section XRealAlgebra.

Lemma xadd_comm (a b : xreal) : xadd a b = xadd b a.
Proof. destruct a, b; simpl; try reflexivity. f_equal. apply Rplus_comm. Qed.

Lemma xmul_comm (a b : xreal) : xmul a b = xmul b a.
Proof. destruct a, b; simpl; try reflexivity. f_equal. apply Rmult_comm. Qed.

Lemma xabs_xsub_sym (a b : xreal) : xabs (xsub a b) = xabs (xsub b a).
Proof.
  destruct a, b; simpl; try reflexivity.
  f_equal. replace (x + - x0) with (- (x0 + - x)) by ring. apply Rabs_Ropp.
Qed.



Lemma xmul_NaN_l (b : xreal) : xmul NaN b = NaN.
Proof. now destruct b. Qed.

End XRealAlgebra.

(** Decides the sign tests left by the scalar operations on closed reals. *)
Ltac xr_cases :=
  repeat match goal with
         | |- context [Rmax ?x ?y] =>
             unfold Rmax; destruct (Rle_dec x y); try lra
         | |- context [Req_dec_T ?x ?y] => destruct (Req_dec_T x y); try lra
         | |- context [Rlt_dec ?x ?y] => destruct (Rlt_dec x y); try lra
         end.

(** ** Distances and similarities entry by entry *)

Section Entrywise.
Import TF.

Lemma map2_cons {A B C} (f : A -> B -> C) x l1 y l2 :
  map2 f (x :: l1) (y :: l2) = f x y :: map2 f l1 l2.
Proof. reflexivity. Qed.

Lemma map2_map_same {A B C D} (f : B -> C -> D) (h : A -> B) (k : A -> C) l :
  map2 f (map h l) (map k l) = map (fun x => f (h x) (k x)) l.
Proof.
  induction l as [|x l IH]; [reflexivity|].
  simpl. rewrite map2_cons. now rewrite IH.
Qed.

Lemma map2_repeat_l {A B C} (f : A -> B -> C) x l :
  map2 f (repeat x (length l)) l = map (f x) l.
Proof.
  induction l as [|y l IH]; [reflexivity|].
  simpl. rewrite map2_cons. now rewrite IH.
Qed.

Lemma pairwise_shape f a b : has_shape (pairwise f a b) (shape0 a) (shape0 b).
Proof.
  unfold has_shape, pairwise, shape0, well_shaped. simpl.
  repeat split.
  - apply length_map.
  - apply Forall_forall. intros r Hr. apply in_map_iff in Hr.
    destruct Hr as (u & <- & _). apply length_map.
Qed.

Lemma tmap_pairwise h f a b :
  tmap h (pairwise f a b) = pairwise (fun u v => h (f u v)) a b.
Proof.
  unfold tmap, pairwise. simpl. f_equal.
  rewrite map_map. apply map_ext. intros u. now rewrite map_map.
Qed.

Lemma entry_pairwise f a b i j :
  (i < shape0 a)%nat -> (j < shape0 b)%nat ->
  entry (pairwise f a b) i j = f (nth i (rows a) []) (nth j (rows b) []).
Proof.
  unfold entry, pairwise, shape0. cbn [rows]. intros Hi Hj.
  rewrite (nth_indep _ [] (map (fun v => f [] v) (rows b)))
    by (rewrite length_map; exact Hi).
  rewrite (map_nth (fun u => map (fun v => f u v) (rows b))).
  rewrite (nth_indep _ NaN (f (nth i (rows a) []) []))
    by (rewrite length_map; exact Hj).
  apply (map_nth (fun v => f (nth i (rows a) []) v)).
Qed.

Lemma entry_pairwise_outside f a b i j :
  ~ ((i < shape0 a)%nat /\ (j < shape0 b)%nat) ->
  entry (pairwise f a b) i j = NaN.
Proof.
  unfold entry, pairwise, shape0. cbn [rows]. intros H.
  destruct (Nat.lt_ge_cases i (length (rows a))) as [Hi|Hi].
  - rewrite (nth_indep _ [] (map (fun v => f [] v) (rows b)))
      by (rewrite length_map; exact Hi).
    rewrite (map_nth (fun u => map (fun v => f u v) (rows b))).
    apply nth_overflow. rewrite length_map. lia.
  - rewrite (nth_overflow (map _ (rows a))) by (rewrite length_map; exact Hi).
    now destruct j.
Qed.

Lemma entry_pairwise_sym f a i j :
  (forall u v, f u v = f v u) ->
  entry (pairwise f a a) i j = entry (pairwise f a a) j i.
Proof.
  intros Hf.
  destruct (Nat.lt_ge_cases i (shape0 a)) as [Hi|Hi];
    destruct (Nat.lt_ge_cases j (shape0 a)) as [Hj|Hj].
  - rewrite !entry_pairwise by assumption. apply Hf.
  - rewrite !entry_pairwise_outside by lia. reflexivity.
  - rewrite !entry_pairwise_outside by lia. reflexivity.
  - rewrite !entry_pairwise_outside by lia. reflexivity.
Qed.

Lemma map2_comm {A B} (f : A -> A -> B) u v :
  (forall x y, f x y = f y x) -> map2 f u v = map2 f v u.
Proof.
  intros Hf. revert v. induction u as [|x u IH]; intros [|y v]; try reflexivity.
  rewrite !map2_cons. now rewrite Hf, IH.
Qed.

Lemma dot_comm u v : dot u v = dot v u.
Proof. unfold dot. f_equal. apply map2_comm. apply xmul_comm. Qed.

Lemma abs_differences_sym u v :
  map xabs (map2 xsub u v) = map xabs (map2 xsub v u).
Proof.
  revert v. induction u as [|x u IH]; intros [|y v]; try reflexivity.
  rewrite !map2_cons. cbn [map]. now rewrite xabs_xsub_sym, IH.
Qed.

Lemma l2sq_entry_sym u v : l2sq_entry u v = l2sq_entry v u.
Proof.
  unfold l2sq_entry.
  now rewrite (xadd_comm (sum_squares u)), (dot_comm u v).
Qed.

Lemma l1_entry_sym u v : l1_entry u v = l1_entry v u.
Proof. unfold l1_entry. now rewrite abs_differences_sym. Qed.

Lemma linf_entry_sym u v : linf_entry u v = linf_entry v u.
Proof. unfold linf_entry. now rewrite abs_differences_sym. Qed.

End Entrywise.

Section Characterisation.
Import TF ABC.

Lemma pairwise_l2_distance_entrywise a b :
  pairwise_l2_distance a b = pairwise l2sq_entry a b.
Proof.
  unfold pairwise_l2_distance, maximum, matmul_transpose_b.
  cbn [rows]. rewrite map2_map_same.
  rewrite <- (tmap_pairwise (fun x => xmax x (Fin 0))
                (fun u v => xsub (xadd (sum_squares u) (sum_squares v))
                                 (xmul (Fin 2) (dot u v)))).
  unfold pairwise. do 2 f_equal. apply map_ext. intros u.
  now rewrite map2_map_same.
Qed.

Lemma abs_differences_entrywise a b :
  abs_differences a b
  = map (fun u => map (fun v => map xabs (map2 xsub u v)) (rows b)) (rows a).
Proof.
  unfold abs_differences, shape0. rewrite map_map. apply map_ext. intros u.
  apply map2_repeat_l.
Qed.

Lemma pairwise_l1_distance_entrywise a b :
  pairwise_l1_distance a b = pairwise l1_entry a b.
Proof.
  unfold pairwise_l1_distance, pairwise. rewrite abs_differences_entrywise.
  f_equal. rewrite map_map. apply map_ext. intros u. now rewrite map_map.
Qed.

Lemma pairwise_linf_distance_entrywise a b :
  pairwise_linf_distance a b = pairwise linf_entry a b.
Proof.
  unfold pairwise_linf_distance, pairwise. rewrite abs_differences_entrywise.
  f_equal. rewrite map_map. apply map_ext. intros u. now rewrite map_map.
Qed.

Lemma cosine_entrywise a b :
  matmul_transpose_b (linalg_normalize a) (linalg_normalize b)
  = pairwise cosine_entry a b.
Proof.
  unfold matmul_transpose_b, linalg_normalize, pairwise, shape0. cbn [rows].
  rewrite length_map. f_equal. rewrite map_map. apply map_ext. intros u.
  now rewrite map_map.
Qed.

Lemma get_scaled_similarity_eps_free g a b s t eps :
  In s eps_free_metrics ->
  get_scaled_similarity g a b s t = Ok (pairwise (similarity_entry eps s t) a b).
Proof.
  intros Hs. unfold eps_free_metrics in Hs. simpl in Hs.
  unfold get_scaled_similarity, similarity_entry, tdiv, scale.
  destruct Hs as [<- | [<- | [<- | [<- | []]]]]; cbn [bind String.eqb Ascii.eqb Bool.eqb].
  - now rewrite pairwise_l2_distance_entrywise, !tmap_pairwise.
  - now rewrite pairwise_l1_distance_entrywise, !tmap_pairwise.
  - now rewrite pairwise_linf_distance_entrywise, !tmap_pairwise.
  - now rewrite cosine_entrywise, !tmap_pairwise.
Qed.

Lemma get_scaled_similarity_l2_bound g a b t eps :
  g_eps g = Some eps ->
  get_scaled_similarity g a b "l2" t = Ok (pairwise (similarity_entry eps "l2" t) a b).
Proof.
  intros Hg.
  unfold get_scaled_similarity, similarity_entry, tdiv, scale, tsqrt, tadd, lookup_eps.
  rewrite Hg. cbn [bind String.eqb Ascii.eqb Bool.eqb].
  now rewrite pairwise_l2_distance_entrywise, !tmap_pairwise.
Qed.

Lemma get_scaled_similarity_l2_unbound g a b t :
  g_eps g = None ->
  get_scaled_similarity g a b "l2" t = Raise (NameError "eps").
Proof.
  intros Hg. unfold get_scaled_similarity, lookup_eps. rewrite Hg. reflexivity.
Qed.

Lemma get_scaled_similarity_spec g a b s t :
  get_scaled_similarity g a b s t
  = (f <- entry_function g s t ;; Ok (pairwise f a b)).
Proof.
  unfold entry_function.
  destruct (s =? "l2sq")%string eqn:E1.
  { apply String.eqb_eq in E1. subst s.
    apply (get_scaled_similarity_eps_free g a b "l2sq" t NaN). simpl. tauto. }
  destruct (s =? "l2")%string eqn:E2.
  { apply String.eqb_eq in E2. subst s. unfold lookup_eps.
    destruct (g_eps g) as [e|] eqn:Hg.
    - now apply get_scaled_similarity_l2_bound.
    - now apply get_scaled_similarity_l2_unbound. }
  destruct (s =? "l1")%string eqn:E3.
  { apply String.eqb_eq in E3. subst s.
    apply (get_scaled_similarity_eps_free g a b "l1" t NaN). simpl. tauto. }
  destruct (s =? "linf")%string eqn:E4.
  { apply String.eqb_eq in E4. subst s.
    apply (get_scaled_similarity_eps_free g a b "linf" t NaN). simpl. tauto. }
  destruct (s =? "cosine")%string eqn:E5.
  { apply String.eqb_eq in E5. subst s.
    apply (get_scaled_similarity_eps_free g a b "cosine" t NaN). simpl. tauto. }
  unfold get_scaled_similarity. now rewrite E1, E2, E3, E4, E5.
Qed.

Lemma align_through_soft_assignment g a b s t :
  align_pair_of_sequences g a b s t
  = (p <- softmaxed_sim_12 g a b s t ;; loss_of_soft_assignment g a b s t p).
Proof.
  unfold align_pair_of_sequences, softmaxed_sim_12, loss_of_soft_assignment.
  now destruct (get_scaled_similarity g a b s t).
Qed.

Lemma get_scaled_similarity_shape g a b s t M :
  get_scaled_similarity g a b s t = Ok M -> has_shape M (shape0 a) (shape0 b).
Proof.
  rewrite get_scaled_similarity_spec.
  destruct (entry_function g s t) as [f|e]; simpl; [|discriminate].
  intros [= <-]. apply pairwise_shape.
Qed.

End Characterisation.

(** ** Finite inputs: the computation on reals *)

Section Finite.
Import TF ABC.

Lemma reduce_sum_Fin l : reduce_sum (map Fin l) = Fin (Rsum l).
Proof.
  induction l as [|x l IH]; [reflexivity|].
  unfold reduce_sum in *. simpl. now rewrite IH.
Qed.

Lemma map_Fin (f : xreal -> xreal) (fr : R -> R) l :
  (forall x, f (Fin x) = Fin (fr x)) ->
  map f (map Fin l) = map Fin (map fr l).
Proof. intros H. rewrite !map_map. apply map_ext. intros x. apply H. Qed.

Lemma map2_Fin (f : xreal -> xreal -> xreal) (fr : R -> R -> R) u v :
  (forall x y, f (Fin x) (Fin y) = Fin (fr x y)) ->
  map2 f (map Fin u) (map Fin v) = map Fin (map2 fr u v).
Proof.
  intros H. revert v. induction u as [|x u IH]; intros [|y v]; try reflexivity.
  simpl. rewrite !map2_cons. simpl. now rewrite H, IH.
Qed.

Lemma sum_squares_Fin u : sum_squares (map Fin u) = Fin (Rsum_squares u).
Proof.
  unfold sum_squares, Rsum_squares.
  rewrite (map_Fin square (fun x => x * x)) by reflexivity.
  apply reduce_sum_Fin.
Qed.

Lemma dot_Fin u v : dot (map Fin u) (map Fin v) = Fin (Rdot u v).
Proof.
  unfold dot, Rdot. rewrite (map2_Fin xmul Rmult) by reflexivity.
  apply reduce_sum_Fin.
Qed.

Lemma Rsum_nonneg l : Forall (fun x => 0 <= x) l -> 0 <= Rsum l.
Proof.
  induction 1 as [|x l Hx _ IH]; simpl; [lra|].
  unfold Rsum in *. simpl. lra.
Qed.

Lemma Rsum_squares_nonneg u : 0 <= Rsum_squares u.
Proof.
  apply Rsum_nonneg. apply Forall_forall. intros y Hy.
  apply in_map_iff in Hy. destruct Hy as (x & <- & _). nra.
Qed.

Lemma l2sq_entry_Fin u v :
  l2sq_entry (map Fin u) (map Fin v)
  = Fin (Rmax (Rsum_squares u + Rsum_squares v + - (2 * Rdot u v)) 0).
Proof. unfold l2sq_entry. now rewrite !sum_squares_Fin, dot_Fin. Qed.

Lemma abs_sub_Fin u v :
  map xabs (map2 xsub (map Fin u) (map Fin v))
  = map Fin (map Rabs (map2 (fun x y => x + - y) u v)).
Proof.
  rewrite (map2_Fin xsub (fun x y => x + - y)) by reflexivity.
  now rewrite (map_Fin xabs Rabs) by reflexivity.
Qed.

Lemma l1_entry_Fin u v :
  l1_entry (map Fin u) (map Fin v)
  = Fin (Rsum (map Rabs (map2 (fun x y => x + - y) u v))).
Proof. unfold l1_entry. now rewrite abs_sub_Fin, reduce_sum_Fin. Qed.

Lemma reduce_max_Fin x l : exists y, reduce_max (map Fin (x :: l)) = Fin y.
Proof.
  revert x. induction l as [|z l IH]; intros x.
  - exists x. reflexivity.
  - destruct (IH z) as (y & Hy). exists (Rmax x y).
    change (reduce_max (map Fin (x :: z :: l)))
      with (xmax (Fin x) (reduce_max (map Fin (z :: l)))).
    now rewrite Hy.
Qed.

Lemma linf_entry_Fin u v :
  u <> [] -> v <> [] -> exists y, linf_entry (map Fin u) (map Fin v) = Fin y.
Proof.
  intros Hu Hv. unfold linf_entry. rewrite abs_sub_Fin.
  destruct u as [|x u]; [congruence|]. destruct v as [|y v]; [congruence|].
  rewrite map2_cons. cbn [map]. apply reduce_max_Fin.
Qed.

Lemma l2_norm_Fin u : l2_norm (map Fin u) = Fin (sqrt (Rsum_squares u)).
Proof.
  unfold l2_norm. fold (sum_squares (map Fin u)). rewrite sum_squares_Fin.
  simpl. destruct (Rlt_dec (Rsum_squares u) 0) as [H|_]; [|reflexivity].
  pose proof (Rsum_squares_nonneg u). lra.
Qed.

Lemma sqrt_Rsum_squares_neq_0 u : Rsum_squares u <> 0 -> sqrt (Rsum_squares u) <> 0.
Proof.
  intros H Hs. apply H. apply sqrt_eq_0; [apply Rsum_squares_nonneg | exact Hs].
Qed.

Lemma normalize_row_Fin u :
  Rsum_squares u <> 0 ->
  normalize_row (map Fin u) = map Fin (map (fun x => x / sqrt (Rsum_squares u)) u).
Proof.
  intros H. unfold normalize_row. rewrite l2_norm_Fin.
  apply map_Fin. intros x. simpl.
  destruct (Req_dec_T (sqrt (Rsum_squares u)) 0) as [E|_]; [|reflexivity].
  now apply sqrt_Rsum_squares_neq_0 in E.
Qed.

Lemma cosine_entry_Fin u v :
  Rsum_squares u <> 0 -> Rsum_squares v <> 0 ->
  cosine_entry (map Fin u) (map Fin v)
  = Fin (Rdot (map (fun x => x / sqrt (Rsum_squares u)) u)
              (map (fun x => x / sqrt (Rsum_squares v)) v)).
Proof.
  intros Hu Hv. unfold cosine_entry.
  rewrite !normalize_row_Fin by assumption. apply dot_Fin.
Qed.

Lemma nth_of_reals d m i :
  nth i (rows (of_reals d m)) [] = map Fin (nth i m []).
Proof. unfold of_reals. cbn [rows]. apply (map_nth (map Fin) m []). Qed.

Lemma shape0_of_reals d m : shape0 (of_reals d m) = length m.
Proof. unfold shape0, of_reals. cbn [rows]. apply length_map. Qed.

End Finite.

Section Refinement.
Import TF ABC.

Lemma map_const_seq {A} (c : A) a d : map (fun _ => c) (seq a d) = repeat c d.
Proof.
  revert a. induction d as [|d IH]; intros a; [reflexivity|].
  simpl. now rewrite IH.
Qed.

Lemma list_as_map_nth {A} (l : list A) (dflt : A) :
  l = map (fun i => nth i l dflt) (seq 0 (length l)).
Proof.
  induction l as [|x l IH]; [reflexivity|].
  cbn [length seq map nth]. f_equal.
  rewrite <- seq_shift, map_map. exact IH.
Qed.

Lemma map2_seq_nth {A B} (f : nat -> A -> B) (l : list A) (dflt : A) :
  map2 f (seq 0 (length l)) l
  = map (fun i => f i (nth i l dflt)) (seq 0 (length l)).
Proof.
  rewrite (list_as_map_nth l dflt) at 2.
  rewrite <- (map_id (seq 0 (length l))) at 1.
  now rewrite map2_map_same.
Qed.

Lemma reduce_mean_crossentropy m logits :
  shape0 logits = m ->
  reduce_mean (sparse_categorical_crossentropy (range m) logits)
  = Reference.mean_over m
      (fun i => Reference.cross_entropy (nth i (rows logits) []) i).
Proof.
  unfold shape0. intros <-.
  unfold reduce_mean, sparse_categorical_crossentropy, range, Reference.mean_over.
  rewrite (map2_seq_nth _ (rows logits) []).
  now rewrite length_map, length_seq.
Qed.

End Refinement.

(** ** Softmax and cross-entropy of finite logits *)

Section FiniteSoftmax.
Import TF ABC.

Lemma Rsum_exp_pos l : l <> [] -> 0 < Rsum (map exp l).
Proof.
  intros Hl. destruct l as [|x l]; [congruence|].
  unfold Rsum. cbn [map fold_right].
  assert (H : 0 <= fold_right Rplus 0 (map exp l)).
  { apply Rsum_nonneg. apply Forall_forall. intros y Hy.
    apply in_map_iff in Hy. destruct Hy as (z & <- & _).
    left. apply exp_pos. }
  pose proof (exp_pos x). lra.
Qed.

Lemma Rsum_map_div {A} (f : A -> R) c l :
  Rsum (map (fun x => f x / c) l) = Rsum (map f l) / c.
Proof.
  unfold Rsum. induction l as [|x l IH]; simpl.
  - unfold Rdiv. now rewrite Rmult_0_l.
  - rewrite IH. unfold Rdiv. ring.
Qed.

Lemma Rsum_ge_member x l :
  Forall (fun y => 0 <= y) l -> In x l -> x <= Rsum l.
Proof.
  unfold Rsum. induction 1 as [|y l Hy Hl IH]; intros Hin; [destruct Hin|].
  pose proof (Rsum_nonneg l Hl) as Hs. unfold Rsum in Hs.
  cbn [fold_right]. destruct Hin as [->|Hin]; [lra|].
  specialize (IH Hin). lra.
Qed.

(** Softmax of a non-empty row of finite logits is the row of the real
    quotients exp(x) / sum of exp. *)
Lemma softmax_row_Fin l :
  l <> [] ->
  softmax_row (map Fin l) = map Fin (map (fun x => exp x / Rsum (map exp l)) l).
Proof.
  intros Hl. unfold softmax_row.
  rewrite (map_Fin xexp exp) by reflexivity.
  rewrite reduce_sum_Fin, !map_map. apply map_ext. intros x. simpl.
  destruct (Req_dec_T (Rsum (map exp l)) 0) as [E|_]; [|reflexivity].
  pose proof (Rsum_exp_pos l Hl). lra.
Qed.

Lemma softmax_row_stochastic l : l <> [] -> stochastic_row (softmax_row (map Fin l)).
Proof.
  intros Hl. pose proof (Rsum_exp_pos l Hl) as HS.
  rewrite softmax_row_Fin by assumption. split.
  - apply Forall_forall. intros p Hp.
    apply in_map_iff in Hp. destruct Hp as (q & <- & Hq).
    apply in_map_iff in Hq. destruct Hq as (x & <- & Hx).
    eexists. split; [reflexivity|].
    assert (Hle : exp x <= Rsum (map exp l)).
    { apply Rsum_ge_member.
      - apply Forall_forall. intros y Hy. apply in_map_iff in Hy.
        destruct Hy as (z & <- & _). left. apply exp_pos.
      - now apply in_map. }
    pose proof (exp_pos x). split.
    + now apply Rdiv_lt_0_compat.
    + apply Rmult_le_reg_r with (r := Rsum (map exp l)); [exact HS|].
      unfold Rdiv. rewrite Rmult_assoc, Rinv_l by lra. lra.
  - rewrite reduce_sum_Fin. f_equal.
    rewrite (Rsum_map_div exp). now field; lra.
Qed.

(** Rows all of whose entries are finite are images of real rows. *)
Lemma finite_row_as_reals {A} (F : A -> xreal) (l : list A) :
  (forall a, In a l -> exists x, F a = Fin x) ->
  exists rl, map F l = map Fin rl /\ length rl = length l.
Proof.
  induction l as [|a l IH]; intros H.
  - exists []. split; reflexivity.
  - destruct (H a (or_introl eq_refl)) as (x & Hx).
    destruct IH as (rl & Hrl & Hlen); [intros b Hb; apply H; now right|].
    exists (x :: rl). cbn [map length]. now rewrite Hx, Hrl, Hlen.
Qed.

Lemma regular_stack_rows s d m1 m2 u v :
  regular_stack s d m1 -> regular_stack s d m2 -> In u m1 -> In v m2 ->
  regular_rows s u v.
Proof.
  intros (L1 & D1 & C1) (L2 & _ & C2) Hu Hv.
  rewrite Forall_forall in L1, L2. split.
  - intros E. specialize (D1 E).
    split; intros ->; [specialize (L1 _ Hu)|specialize (L2 _ Hv)];
      cbn [length] in *; lia.
  - intros E. specialize (C1 E). specialize (C2 E).
    rewrite Forall_forall in C1, C2. auto.
Qed.

Lemma similarity_entry_finite eps s t u v :
  In s eps_free_metrics -> t <> 0 -> regular_rows s u v ->
  exists x, similarity_entry eps s (Fin t) (map Fin u) (map Fin v) = Fin x.
Proof.
  intros Hs Ht (Hinf & Hcos). unfold eps_free_metrics in Hs. simpl in Hs.
  unfold similarity_entry.
  destruct Hs as [<- | [<- | [<- | [<- | []]]]]; cbn [String.eqb Ascii.eqb Bool.eqb].
  - rewrite l2sq_entry_Fin. simpl.
    destruct (Req_dec_T t 0); [contradiction|]. eexists. reflexivity.
  - rewrite l1_entry_Fin. simpl.
    destruct (Req_dec_T t 0); [contradiction|]. eexists. reflexivity.
  - destruct (Hinf eq_refl) as (Hu & Hv).
    destruct (linf_entry_Fin u v Hu Hv) as (y & ->). simpl.
    destruct (Req_dec_T t 0); [contradiction|]. eexists. reflexivity.
  - destruct (Hcos eq_refl) as (Hu & Hv).
    rewrite cosine_entry_Fin by assumption. simpl.
    destruct (Req_dec_T t 0); [contradiction|]. eexists. reflexivity.
Qed.

(** Each row of the similarity of two regular finite stacks is the image of
    a real row, as long as the second stack. *)
Lemma similarity_rows_finite eps s t d m1 m2 row :
  In s eps_free_metrics -> t <> 0 ->
  regular_stack s d m1 -> regular_stack s d m2 ->
  In row (rows (pairwise (similarity_entry eps s (Fin t)) (of_reals d m1) (of_reals d m2))) ->
  exists rl, row = map Fin rl /\ length rl = length m2.
Proof.
  intros Hs Ht H1 H2 Hrow. unfold pairwise, of_reals in Hrow. cbn [rows] in Hrow.
  rewrite map_map in Hrow. apply in_map_iff in Hrow. destruct Hrow as (u & <- & Hu).
  rewrite map_map.
  apply (finite_row_as_reals
           (fun v => similarity_entry eps s (Fin t) (map Fin u) (map Fin v))).
  intros v Hv. apply similarity_entry_finite; try assumption.
  now apply (regular_stack_rows s d m1 m2).
Qed.

Lemma nth_softmax_row_Fin l i :
  (i < length l)%nat ->
  nth i (softmax_row (map Fin l)) NaN = Fin (exp (nth i l 0) / Rsum (map exp l)).
Proof.
  intros Hi. rewrite softmax_row_Fin by (intros ->; cbn [length] in Hi; lia).
  rewrite (nth_indep _ NaN (Fin (exp 0 / Rsum (map exp l))))
    by (rewrite !length_map; exact Hi).
  rewrite (map_nth Fin).
  now rewrite (map_nth (fun x => exp x / Rsum (map exp l)) l 0).
Qed.

Lemma cross_entropy_single x : Reference.cross_entropy [Fin x] 0 = Fin 0.
Proof.
  unfold Reference.cross_entropy.
  change [Fin x] with (map Fin [x]).
  rewrite nth_softmax_row_Fin by (cbn [length]; lia).
  unfold Rsum. cbn [nth map fold_right].
  pose proof (exp_pos x) as Hx.
  replace (exp x / (exp x + 0)) with 1 by (field; lra).
  simpl. destruct (Rlt_dec 1 0) as [H|_]; [lra|].
  destruct (Req_dec_T 1 0) as [H|_]; [lra|].
  rewrite ln_1. simpl. f_equal. ring.
Qed.

End FiniteSoftmax.

(** ** The whole loss on finite stacks *)

Section CycleLoss.
Import TF ABC.

Lemma finite_rows_as_matrix n (rws : list (list xreal)) :
  Forall (fun row => exists rl, row = map Fin rl /\ length rl = n) rws ->
  exists m, rws = map (map Fin) m
            /\ length m = length rws
            /\ Forall (fun r => length r = n) m.
Proof.
  induction 1 as [|row rws (rl & -> & Hlen) _ (m & -> & Hm & Hall)].
  - exists []. repeat split. constructor.
  - exists (rl :: m). cbn [map length]. rewrite Hm, length_map.
    repeat split. now constructor.
Qed.

Lemma column_of_reals d m k :
  column k (of_reals d m) = map Fin (map (fun r => nth k r 0) m).
Proof.
  unfold column, of_reals. cbn [rows]. rewrite !map_map.
  apply map_ext. intros r. apply (map_nth Fin r 0).
Qed.

(** The product of a finite matrix with a finite stack is a finite stack of
    rows of the same length. *)
Lemma matmul_of_reals n d p m :
  matmul (of_reals n p) (of_reals d m)
  = of_reals d (map (fun w => map (fun k => Rdot w (map (fun r => nth k r 0) m))
                                   (seq 0 d)) p).
Proof.
  unfold matmul. change (ncols (of_reals d m)) with d.
  set (b := of_reals d m). unfold of_reals. cbn [rows]. subst b.
  f_equal. rewrite !map_map.
  apply map_ext. intros w. rewrite map_map. apply map_ext. intros k.
  rewrite column_of_reals. apply dot_Fin.
Qed.

(** Under the hypotheses that make the similarities finite, the soft nearest
    neighbours form a finite stack with one row of length [d] per row of the
    first stack. *)
Lemma soft_neighbours_finite eps s t d m1 m2 :
  In s eps_free_metrics -> t <> 0 -> m2 <> [] ->
  regular_stack s d m1 -> regular_stack s d m2 ->
  exists nn,
    matmul (softmax (pairwise (similarity_entry eps s (Fin t))
                              (of_reals d m1) (of_reals d m2)))
           (of_reals d m2)
    = of_reals d nn
    /\ length nn = length m1
    /\ Forall (fun r => length r = d) nn.
Proof.
  intros Hs Ht Hne H1 H2.
  set (sim := pairwise (similarity_entry eps s (Fin t)) (of_reals d m1) (of_reals d m2)).
  assert (Hsoft : Forall (fun row => exists rl, row = map Fin rl /\ length rl = length m2)
                         (rows (softmax sim))).
  { unfold softmax. cbn [rows]. apply Forall_forall. intros r Hr.
    apply in_map_iff in Hr. destruct Hr as (row & <- & Hrow).
    destruct (similarity_rows_finite eps s t d m1 m2 row) as (rl & -> & Hlen);
      try assumption.
    rewrite softmax_row_Fin.
    - eexists. split; [reflexivity|]. now rewrite length_map.
    - intros ->. cbn [length] in Hlen. destruct m2; [congruence|discriminate]. }
  destruct (finite_rows_as_matrix _ _ Hsoft) as (p & Hp & Hplen & _).
  assert (Hsm : softmax sim = of_reals (length m2) p).
  { unfold of_reals. rewrite <- Hp. unfold softmax, sim, pairwise.
    cbn [ncols rows]. now rewrite shape0_of_reals. }
  rewrite Hsm, matmul_of_reals. eexists. split; [reflexivity|]. split.
  - rewrite length_map, Hplen. unfold softmax, sim, pairwise, of_reals.
    cbn [rows]. now rewrite !length_map.
  - apply Forall_forall. intros r Hr. apply in_map_iff in Hr.
    destruct Hr as (w & <- & _). now rewrite length_map, length_seq.
Qed.

Lemma pairwise_entries (P : xreal -> Prop) f a b :
  (forall u v, In u (rows a) -> In v (rows b) -> P (f u v)) ->
  Forall (Forall P) (rows (pairwise f a b)).
Proof.
  intros H. unfold pairwise. cbn [rows].
  apply Forall_forall. intros row Hrow. apply in_map_iff in Hrow.
  destruct Hrow as (u & <- & Hu).
  apply Forall_forall. intros x Hx. apply in_map_iff in Hx.
  destruct Hx as (v & <- & Hv). now apply H.
Qed.

Lemma in_rows_of_reals d m u :
  In u (rows (of_reals d m)) -> exists r, u = map Fin r /\ In r m.
Proof.
  unfold of_reals. cbn [rows]. intros H. apply in_map_iff in H.
  destruct H as (r & <- & Hr). now exists r.
Qed.



(** With one row in the first stack the second similarity has one class, and
    the cross-entropy of one finite logit against that class is 0. *)
Lemma align_single_class g embs1 embs2 s t sim_12 x :
  shape0 embs1 = 1%nat ->
  get_scaled_similarity g embs1 embs2 s t = Ok sim_12 ->
  get_scaled_similarity g (matmul (softmax sim_12) embs2) embs1 s t
    = Ok (mkT 1 [[Fin x]]) ->
  align_pair_of_sequences g embs1 embs2 s t = Ok (Fin 0).
Proof.
  intros H1 H12 H21. unfold align_pair_of_sequences.
  rewrite H12. cbn [bind]. rewrite H21. cbn [bind].
  rewrite reduce_mean_crossentropy by (rewrite H1; reflexivity).
  unfold Reference.mean_over. rewrite H1. cbn [seq map nth rows].
  rewrite cross_entropy_single. unfold reduce_sum. simpl.
  destruct (Req_dec_T 1 0) as [E|_]; [lra|]. do 2 f_equal. field.
Qed.

Lemma finite_row_reals row : Forall finite row -> exists rl, row = map Fin rl.
Proof.
  induction 1 as [|a row (x & ->) _ (rl & ->)].
  - now exists [].
  - now exists (x :: rl).
Qed.

Lemma stochastic_row_exact_within tol row :
  0 <= tol -> stochastic_row row -> stochastic_row_within tol row.
Proof.
  intros Ht (Hall & Hsum). split.
  - eapply Forall_impl; [|exact Hall].
    intros p (x & -> & Hx). exists x. split; [reflexivity|lra].
  - exists 1. split; [exact Hsum|].
    replace (1 - 1) with 0 by ring. now rewrite Rabs_R0.
Qed.

End CycleLoss.

Module Claims.
Import TF ABC.

Lemma eqb_of_not_in (s : string) :
  ~ In s supported_metrics ->
  (s =? "l2sq")%string = false /\ (s =? "l2")%string = false /\
  (s =? "l1")%string = false /\ (s =? "linf")%string = false /\
  (s =? "cosine")%string = false.
Proof.
  intros H. unfold supported_metrics in H. simpl in H.
  repeat split; apply String.eqb_neq; intros ->; apply H; tauto.
Qed.

(** C1 (the code against the reference, metric by metric).  For a first stack
    of at least one row and a second stack of the same column count: for each
    of the metrics l2sq, l1, linf and cosine the two similarity matrices are
    returned, S12 of shape m x n for the two stacks and S21 of shape m x m for
    the product of the softmax of S12 with E2 and the first stack, and
    [align_pair_of_sequences] returns the reference loss, the mean over i of
    the cross-entropy of row i of S21 against label i; for the metric l2, in
    the notebook's namespace, no loss is returned: the call raises NameError
    on [eps]. *)
Theorem align_is_reference_except_l2 (embs1 embs2 : tensor2) (temperature : xreal) :
  (1 <= shape0 embs1)%nat ->
  well_shaped embs1 ->
  well_shaped embs2 ->
  ncols embs1 = ncols embs2 ->
  (forall similarity_type, In similarity_type eps_free_metrics ->
     exists s12 s21,
       get_scaled_similarity notebook_globals embs1 embs2 similarity_type temperature
         = Ok s12
       /\ has_shape s12 (shape0 embs1) (shape0 embs2)
       /\ get_scaled_similarity notebook_globals (matmul (softmax s12) embs2) embs1
             similarity_type temperature
           = Ok s21
       /\ has_shape s21 (shape0 embs1) (shape0 embs1)
       /\ align_pair_of_sequences notebook_globals embs1 embs2 similarity_type
             temperature
           = Ok (Reference.mean_over (shape0 embs1)
                   (fun i => Reference.cross_entropy (nth i (rows s21) []) i)))
  /\ align_pair_of_sequences notebook_globals embs1 embs2 "l2" temperature
     = Raise (NameError "eps")
  /\ (forall loss,
        align_pair_of_sequences notebook_globals embs1 embs2 "l2" temperature
        <> Ok loss).
Proof.
  intros _ _ _ _. split; [|split; [reflexivity|intros loss H; discriminate H]].
  intros s Hs.
  destruct (get_scaled_similarity notebook_globals embs1 embs2 s temperature)
    as [s12|e] eqn:H12.
  2:{ rewrite (get_scaled_similarity_eps_free _ _ _ _ _ NaN Hs) in H12.
      discriminate H12. }
  destruct (get_scaled_similarity notebook_globals (matmul (softmax s12) embs2)
              embs1 s temperature) as [s21|e] eqn:H21.
  2:{ rewrite (get_scaled_similarity_eps_free _ _ _ _ _ NaN Hs) in H21.
      discriminate H21. }
  pose proof (get_scaled_similarity_shape _ _ _ _ _ _ H12) as S12.
  pose proof (get_scaled_similarity_shape _ _ _ _ _ _ H21) as S21.
  assert (Hm : shape0 (matmul (softmax s12) embs2) = shape0 embs1).
  { unfold shape0, matmul, softmax. cbn [rows]. rewrite !length_map.
    exact (proj1 S12). }
  rewrite Hm in S21.
  exists s12, s21. repeat (split; [first [reflexivity | assumption]|]).
  unfold align_pair_of_sequences. rewrite H12. cbn [bind]. rewrite H21. cbn [bind].
  f_equal. apply reduce_mean_crossentropy. exact (proj1 S21).
Qed.

Lemma align_is_reference_except_l2_witness :
  (forall similarity_type, In similarity_type eps_free_metrics ->
     exists s12 s21,
       get_scaled_similarity notebook_globals (of_reals 2 [[0; 0]; [1; 0]])
           (of_reals 2 [[0; 1]; [1; 1]]) similarity_type (Fin 1)
         = Ok s12
       /\ has_shape s12 2 2
       /\ get_scaled_similarity notebook_globals
             (matmul (softmax s12) (of_reals 2 [[0; 1]; [1; 1]]))
             (of_reals 2 [[0; 0]; [1; 0]]) similarity_type (Fin 1)
           = Ok s21
       /\ has_shape s21 2 2
       /\ align_pair_of_sequences notebook_globals (of_reals 2 [[0; 0]; [1; 0]])
             (of_reals 2 [[0; 1]; [1; 1]]) similarity_type (Fin 1)
           = Ok (Reference.mean_over 2
                   (fun i => Reference.cross_entropy (nth i (rows s21) []) i)))
  /\ align_pair_of_sequences notebook_globals (of_reals 2 [[0; 0]; [1; 0]])
       (of_reals 2 [[0; 1]; [1; 1]]) "l2" (Fin 1)
     = Raise (NameError "eps")
  /\ (forall loss,
        align_pair_of_sequences notebook_globals (of_reals 2 [[0; 0]; [1; 0]])
          (of_reals 2 [[0; 1]; [1; 1]]) "l2" (Fin 1)
        <> Ok loss).
Proof.
  apply (align_is_reference_except_l2 (of_reals 2 [[0; 0]; [1; 0]])
           (of_reals 2 [[0; 1]; [1; 1]]) (Fin 1)).
  - unfold shape0, of_reals. cbn [rows map length]. lia.
  - unfold well_shaped, of_reals. cbn [rows ncols map]. repeat constructor.
  - unfold well_shaped, of_reals. cbn [rows ncols map]. repeat constructor.
  - reflexivity.
Defined.

(** C2 (as stated, refuted).  With the squared-Euclidean metric and the
    temperature -1 the call returns a finite matrix, and with the temperature 0
    it returns a matrix holding -inf: in neither case is an error raised. *)
Lemma non_positive_temperature_returns_matrix :
  get_scaled_similarity notebook_globals (of_reals 1 [[1]]) (of_reals 1 [[0]])
      "l2sq" (Fin (-1)) = Ok (mkT 1 [[Fin 1]])
  /\ get_scaled_similarity notebook_globals (of_reals 1 [[1]]) (of_reals 1 [[0]])
      "l2sq" (Fin 0) = Ok (mkT 1 [[NInf]]).
Proof.
  split.
  - unfold get_scaled_similarity. cbn [bind String.eqb Ascii.eqb Bool.eqb].
    unfold pairwise_l2_distance, matmul_transpose_b, maximum, scale, tdiv, tmap,
      dot, reduce_sum, square, map2, of_reals, shape0.
    simpl. xr_cases; repeat f_equal; lra.
  - unfold get_scaled_similarity. cbn [bind String.eqb Ascii.eqb Bool.eqb].
    unfold pairwise_l2_distance, matmul_transpose_b, maximum, scale, tdiv, tmap,
      dot, reduce_sum, square, map2, of_reals, shape0.
    simpl. unfold inf_times. xr_cases; try reflexivity.
Qed.

(** C2 (amended).  [get_scaled_similarity] never inspects the temperature:
    for the metrics l2sq, l1 and linf and for every temperature, zero and
    negative ones included, it returns the negated distance matrix divided
    entry by entry by the temperature; and whenever a call raises, the same
    call with any other temperature raises the same exception. *)
Theorem temperature_is_not_validated (g : globals) (embs1 embs2 : tensor2)
    (temperature : xreal) :
  get_scaled_similarity g embs1 embs2 "l2sq" temperature
    = Ok (tdiv (scale (Fin (-1)) (pairwise_l2_distance embs1 embs2)) temperature)
  /\ get_scaled_similarity g embs1 embs2 "l1" temperature
    = Ok (tdiv (scale (Fin (-1)) (pairwise_l1_distance embs1 embs2)) temperature)
  /\ get_scaled_similarity g embs1 embs2 "linf" temperature
    = Ok (tdiv (scale (Fin (-1)) (pairwise_linf_distance embs1 embs2)) temperature)
  /\ (forall similarity_type e,
        get_scaled_similarity g embs1 embs2 similarity_type temperature = Raise e ->
        forall temperature',
          get_scaled_similarity g embs1 embs2 similarity_type temperature' = Raise e).
Proof.
  repeat split.
  intros s e H t'. rewrite get_scaled_similarity_spec in *.
  unfold entry_function, lookup_eps in *.
  repeat match goal with
         | H : context [if ?b then _ else _] |- _ => destruct b
         | H : context [match ?o with Some _ => _ | None => _ end] |- _ => destruct o
         end; cbn [bind] in *; try discriminate; exact H.
Qed.

(** C3 (the code at the failing input).  In the notebook's namespace the l2
    branch reads the unbound name [eps]: for all inputs the similarity
    computation, and with it the loss, raises NameError before any square
    root is taken. *)
Theorem l2_path_raises_name_error (embs1 embs2 : tensor2) (temperature : xreal) :
  get_scaled_similarity notebook_globals embs1 embs2 "l2" temperature
    = Raise (NameError "eps")
  /\ align_pair_of_sequences notebook_globals embs1 embs2 "l2" temperature
    = Raise (NameError "eps").
Proof. split; reflexivity. Qed.

(** C4.  A metric name outside l2sq, l2, l1, linf and cosine makes
    [get_scaled_similarity] raise the ValueError whose message ends with that
    very name; no tensor is returned, and [align_pair_of_sequences] raises the
    same error at its first similarity computation, so no loss is returned
    either. *)
Theorem unknown_metric_raises (g : globals) (embs1 embs2 : tensor2)
    (similarity_type : string) (temperature : xreal) :
  ~ In similarity_type supported_metrics ->
  get_scaled_similarity g embs1 embs2 similarity_type temperature
    = Raise (ValueError ("Unknown similarity type: " ++ similarity_type)%string)
  /\ align_pair_of_sequences g embs1 embs2 similarity_type temperature
    = Raise (ValueError ("Unknown similarity type: " ++ similarity_type)%string).
Proof.
  intros H. destruct (eqb_of_not_in _ H) as (H1 & H2 & H3 & H4 & H5).
  assert (E : get_scaled_similarity g embs1 embs2 similarity_type temperature
              = Raise (ValueError ("Unknown similarity type: " ++ similarity_type)%string)).
  { unfold get_scaled_similarity. rewrite H1, H2, H3, H4, H5. reflexivity. }
  split; [exact E|].
  unfold align_pair_of_sequences. rewrite E. reflexivity.
Qed.

Lemma unknown_metric_raises_witness :
  get_scaled_similarity notebook_globals (of_reals 2 [[0; 0]; [1; 0]])
      (of_reals 2 [[0; 1]; [1; 1]]) "manhattan-typo" (Fin 1)
    = Raise (ValueError "Unknown similarity type: manhattan-typo")
  /\ align_pair_of_sequences notebook_globals (of_reals 2 [[0; 0]; [1; 0]])
      (of_reals 2 [[0; 1]; [1; 1]]) "manhattan-typo" (Fin 1)
    = Raise (ValueError "Unknown similarity type: manhattan-typo").
Proof.
  apply (unknown_metric_raises notebook_globals _ _ "manhattan-typo" (Fin 1)).
  unfold supported_metrics. simpl.
  intros [H | [H | [H | [H | [H | []]]]]]; discriminate H.
Defined.




(** C6.  For the metrics l2sq, l1, linf and cosine the scaled similarity of an
    m-row and an n-row tensor is returned and has m rows of n entries each,
    whatever the temperature; for l2 no matrix is returned in the notebook's
    namespace, the call raising NameError on [eps]. *)
Theorem similarity_shape_by_metric (embs1 embs2 : tensor2) (temperature : xreal) :
  (forall similarity_type, In similarity_type eps_free_metrics ->
     exists sim,
       get_scaled_similarity notebook_globals embs1 embs2 similarity_type temperature
         = Ok sim
       /\ has_shape sim (shape0 embs1) (shape0 embs2))
  /\ get_scaled_similarity notebook_globals embs1 embs2 "l2" temperature
     = Raise (NameError "eps").
Proof.
  split; [|reflexivity].
  intros s Hs.
  rewrite (get_scaled_similarity_eps_free _ _ _ _ _ NaN Hs).
  eexists. split; [reflexivity|]. apply pairwise_shape.
Qed.

(** C7 (as stated, refuted).  With the cosine metric, a first stack holding
    the zero row makes the only entry of the soft assignment NaN, which lies
    outside [0,1]; and with an empty second stack the only row of the soft
    assignment is empty and sums to 0, not to 1. *)
Lemma soft_assignment_not_stochastic :
  softmaxed_sim_12 notebook_globals (of_reals 2 [[0; 0]]) (of_reals 2 [[1; 0]])
      "cosine" (Fin 1) = Ok (mkT 1 [[NaN]])
  /\ (exists p,
        softmaxed_sim_12 notebook_globals (of_reals 2 [[0; 1]]) (of_reals 2 [])
          "l2sq" (Fin 1) = Ok p
        /\ map reduce_sum (rows p) = [Fin 0]).
Proof.
  split.
  - unfold softmaxed_sim_12.
    rewrite (get_scaled_similarity_eps_free _ _ _ "cosine" _ NaN)
      by (unfold eps_free_metrics; simpl; tauto).
    cbn [bind]. unfold softmax, pairwise, of_reals, shape0. cbn [rows ncols map length].
    do 3 f_equal. unfold similarity_entry. cbn [String.eqb Ascii.eqb Bool.eqb].
    assert (Hz : normalize_row (map Fin [0; 0]) = [NaN; NaN]).
    { unfold normalize_row. rewrite l2_norm_Fin.
      replace (Rsum_squares [0; 0]) with 0
        by (unfold Rsum_squares, Rsum; simpl; ring).
      rewrite sqrt_0. simpl. unfold inf_times. xr_cases. reflexivity. }
    assert (Hc : cosine_entry [Fin 0; Fin 0] [Fin 1; Fin 0] = NaN).
    { unfold cosine_entry. change [Fin 0; Fin 0] with (map Fin [0; 0]).
      rewrite Hz. unfold dot, map2, normalize_row.
      cbn [combine map fst snd reduce_sum fold_right].
      now rewrite xmul_NaN_l. }
    rewrite Hc. reflexivity.
  - eexists. split; reflexivity.
Qed.

(** C7 (amended).  For every pair of stacks with a non-empty second stack, and
    every metric name, temperature and namespace for which the scaled
    similarity is returned with entries that are all numbers (neither infinite
    nor NaN): the soft assignment is returned, has one row per row of the first
    stack and one column per row of the second, and each of its rows has its
    entries in [0, 1] and sums to 1 within 1e-5. *)
Theorem soft_assignment_stochastic_within (g : globals) (embs1 embs2 : tensor2)
    (similarity_type : string) (temperature : xreal) (sim_12 : tensor2) :
  get_scaled_similarity g embs1 embs2 similarity_type temperature = Ok sim_12 ->
  finite_tensor sim_12 ->
  (1 <= shape0 embs2)%nat ->
  exists p,
    softmaxed_sim_12 g embs1 embs2 similarity_type temperature = Ok p
    /\ align_pair_of_sequences g embs1 embs2 similarity_type temperature
       = loss_of_soft_assignment g embs1 embs2 similarity_type temperature p
    /\ has_shape p (shape0 embs1) (shape0 embs2)
    /\ Forall (stochastic_row_within (1 / 100000)) (rows p).
Proof.
  intros H12 Hfin Hn. rewrite align_through_soft_assignment.
  unfold softmaxed_sim_12. rewrite H12. cbn [bind].
  eexists. split; [reflexivity|]. split; [reflexivity|].
  destruct (get_scaled_similarity_shape _ _ _ _ _ _ H12) as (Hm & Hc & Hw).
  split.
  - unfold has_shape, softmax, shape0, well_shaped in *. cbn [rows ncols] in *.
    rewrite length_map. repeat split; try assumption.
    apply Forall_forall. intros r Hr. apply in_map_iff in Hr.
    destruct Hr as (l & <- & Hl). unfold softmax_row. rewrite !length_map.
    rewrite Forall_forall in Hw. now apply Hw.
  - unfold softmax. cbn [rows]. apply Forall_forall. intros r Hr.
    apply in_map_iff in Hr. destruct Hr as (row & <- & Hrow).
    unfold finite_tensor in Hfin. rewrite Forall_forall in Hfin.
    destruct (finite_row_reals row (Hfin row Hrow)) as (rl & ->).
    apply stochastic_row_exact_within; [lra|].
    apply softmax_row_stochastic. intros ->.
    unfold well_shaped in Hw. rewrite Forall_forall in Hw.
    specialize (Hw _ Hrow). cbn [map length] in Hw. lia.
Qed.

Lemma soft_assignment_stochastic_within_witness :
  exists p,
    softmaxed_sim_12 notebook_globals (of_reals 2 [[0; 0]; [1; 0]])
        (of_reals 2 [[0; 1]; [1; 1]]) "linf" (Fin 1) = Ok p
    /\ align_pair_of_sequences notebook_globals (of_reals 2 [[0; 0]; [1; 0]])
         (of_reals 2 [[0; 1]; [1; 1]]) "linf" (Fin 1)
       = loss_of_soft_assignment notebook_globals (of_reals 2 [[0; 0]; [1; 0]])
           (of_reals 2 [[0; 1]; [1; 1]]) "linf" (Fin 1) p
    /\ has_shape p 2 2
    /\ Forall (stochastic_row_within (1 / 100000)) (rows p).
Proof.
  apply (soft_assignment_stochastic_within notebook_globals
           (of_reals 2 [[0; 0]; [1; 0]]) (of_reals 2 [[0; 1]; [1; 1]]) "linf" (Fin 1)
           (pairwise (similarity_entry NaN "linf" (Fin 1))
              (of_reals 2 [[0; 0]; [1; 0]]) (of_reals 2 [[0; 1]; [1; 1]]))).
  - apply get_scaled_similarity_eps_free. unfold eps_free_metrics. simpl. tauto.
  - apply pairwise_entries. intros u v Hu Hv.
    apply in_rows_of_reals in Hu, Hv.
    destruct Hu as (ru & -> & Hu), Hv as (rv & -> & Hv).
    apply similarity_entry_finite.
    + unfold eps_free_metrics. simpl. tauto.
    + lra.
    + split; [|discriminate]. intros _.
      simpl in Hu, Hv.
      destruct Hu as [<-|[<-|[]]]; destruct Hv as [<-|[<-|[]]];
        split; discriminate.
  - unfold shape0, of_reals. cbn [rows map length]. lia.
Defined.

(** C8.  With the same stack as source and target, the squared-Euclidean,
    Manhattan and Chebyshev distance matrices are symmetric, and so is the
    Euclidean one the l2 branch derives from the first (the square root of the
    squared distance plus [eps], for any value of [eps]): entry (i, j) equals
    entry (j, i) for all i and j. *)
Theorem self_distance_symmetric (embs : tensor2) (eps : xreal) (i j : nat) :
  entry (pairwise_l2_distance embs embs) i j
    = entry (pairwise_l2_distance embs embs) j i
  /\ entry (tsqrt (tadd (pairwise_l2_distance embs embs) eps)) i j
    = entry (tsqrt (tadd (pairwise_l2_distance embs embs) eps)) j i
  /\ entry (pairwise_l1_distance embs embs) i j
    = entry (pairwise_l1_distance embs embs) j i
  /\ entry (pairwise_linf_distance embs embs) i j
    = entry (pairwise_linf_distance embs embs) j i.
Proof.
  unfold tsqrt, tadd.
  rewrite pairwise_l2_distance_entrywise, pairwise_l1_distance_entrywise,
    pairwise_linf_distance_entrywise, !tmap_pairwise.
  repeat split; apply entry_pairwise_sym; intros u v.
  - apply l2sq_entry_sym.
  - now rewrite l2sq_entry_sym.
  - apply l1_entry_sym.
  - apply linf_entry_sym.
Qed.

End Claims.

(** ** Properties of the helpers and of the cells that call them *)

Section CoverageLemmas.
Import TF ABC Cells.

Lemma align_pair_of_sequences_spec g a b s t :
  align_pair_of_sequences g a b s t
  = (f <- entry_function g s t ;; Ok (loss_value f a b)).
Proof.
  unfold align_pair_of_sequences. rewrite get_scaled_similarity_spec.
  destruct (entry_function g s t) as [f|e] eqn:Hf; cbn [bind]; [|reflexivity].
  rewrite get_scaled_similarity_spec, Hf. reflexivity.
Qed.

Lemma distance_metric_eps_free s : In s distance_metrics -> In s eps_free_metrics.
Proof. unfold distance_metrics, eps_free_metrics. simpl. tauto. Qed.

Lemma map_map2 {A B C D} (f : C -> D) (g : A -> B -> C) u v :
  map f (map2 g u v) = map2 (fun x y => f (g x y)) u v.
Proof. unfold map2. now rewrite map_map. Qed.

Lemma squared_distance_expansion u v :
  length u = length v ->
  Rsum_squares u + Rsum_squares v + - (2 * Rdot u v) = Rsquared_distance u v.
Proof.
  unfold Rsum_squares, Rdot, Rsquared_distance, Rsum.
  revert v. induction u as [|x u IH]; intros [|y v] Hlen; try discriminate Hlen.
  - simpl. ring.
  - injection Hlen as Hlen. specialize (IH v Hlen).
    cbn [map]. rewrite !map2_cons. cbn [fold_right]. rewrite <- IH. ring.
Qed.

Lemma Rsquared_distance_nonneg u v : 0 <= Rsquared_distance u v.
Proof.
  unfold Rsquared_distance. apply Rsum_nonneg. apply Forall_forall.
  intros z Hz. unfold map2 in Hz. apply in_map_iff in Hz.
  destruct Hz as ((x, y) & <- & _). cbn [fst snd].
  pose proof (Rle_0_sqr (x - y)) as H. unfold Rsqr in H. exact H.
Qed.

Lemma reduce_max_nonneg_Fin l :
  l <> [] -> Forall (fun x => 0 <= x) l ->
  reduce_max (map Fin l) = Fin (fold_right Rmax 0 l).
Proof.
  intros Hne Hl. induction Hl as [|x l Hx Hl IH]; [congruence|].
  destruct l as [|y l].
  - unfold reduce_max. simpl. f_equal. symmetry. now apply Rmax_left.
  - change (reduce_max (map Fin (x :: y :: l)))
      with (xmax (Fin x) (reduce_max (map Fin (y :: l)))).
    rewrite IH by discriminate. reflexivity.
Qed.

Lemma l2sq_entry_distance u v :
  length u = length v ->
  l2sq_entry (map Fin u) (map Fin v) = Fin (Rsquared_distance u v).
Proof.
  intros Hlen. rewrite l2sq_entry_Fin, squared_distance_expansion by exact Hlen.
  f_equal. apply Rmax_left. apply Rsquared_distance_nonneg.
Qed.

Lemma l1_entry_distance u v :
  l1_entry (map Fin u) (map Fin v) = Fin (Rl1_distance u v).
Proof. rewrite l1_entry_Fin. unfold Rl1_distance. now rewrite map_map2. Qed.

Lemma linf_entry_distance u v :
  u <> [] -> v <> [] ->
  linf_entry (map Fin u) (map Fin v) = Fin (Rlinf_distance u v).
Proof.
  intros Hu Hv. unfold linf_entry, Rlinf_distance.
  rewrite abs_sub_Fin, map_map2.
  apply reduce_max_nonneg_Fin.
  - destruct u; [congruence|]. destruct v; [congruence|]. discriminate.
  - apply Forall_forall. intros z Hz. unfold map2 in Hz. apply in_map_iff in Hz.
    destruct Hz as ((x, y) & <- & _). cbn [fst snd]. apply Rabs_pos.
Qed.

Lemma Rdistance_self s u : Rdistance s u u = 0.
Proof.
  assert (H2 : Rsquared_distance u u = 0).
  { unfold Rsquared_distance, Rsum. induction u as [|x u IH]; [reflexivity|].
    rewrite map2_cons. cbn [fold_right]. rewrite IH. ring. }
  assert (H1 : Rl1_distance u u = 0).
  { clear H2. unfold Rl1_distance, Rsum. induction u as [|x u IH]; [reflexivity|].
    rewrite map2_cons. cbn [fold_right]. rewrite IH.
    unfold Rminus. rewrite Rplus_opp_r, Rabs_R0. ring. }
  assert (Hi : Rlinf_distance u u = 0).
  { clear H1 H2. unfold Rlinf_distance. induction u as [|x u IH]; [reflexivity|].
    rewrite map2_cons. cbn [fold_right]. rewrite IH.
    unfold Rminus. rewrite Rplus_opp_r, Rabs_R0. apply Rmax_left. lra. }
  unfold Rdistance.
  destruct (s =? "l2sq")%string; [exact H2|].
  destruct (s =? "l1")%string; [exact H1|exact Hi].
Qed.

(** The similarity of two finite rows under a distance metric: minus the
    distance, over the temperature. *)
Lemma similarity_entry_distance eps s t u v :
  In s distance_metrics -> t <> 0 -> length u = length v ->
  (s = "linf"%string -> u <> []) ->
  similarity_entry eps s (Fin t) (map Fin u) (map Fin v)
  = Fin (-1 * Rdistance s u v / t).
Proof.
  intros Hs Ht Hlen Hinf. unfold distance_metrics in Hs. simpl in Hs.
  unfold similarity_entry, Rdistance.
  destruct Hs as [<- | [<- | [<- | []]]]; cbn [String.eqb Ascii.eqb Bool.eqb].
  - rewrite l2sq_entry_distance by exact Hlen. simpl.
    destruct (Req_dec_T t 0); [contradiction|reflexivity].
  - rewrite l1_entry_distance. simpl.
    destruct (Req_dec_T t 0); [contradiction|reflexivity].
  - specialize (Hinf eq_refl).
    rewrite linf_entry_distance; try assumption.
    + simpl. destruct (Req_dec_T t 0); [contradiction|reflexivity].
    + intros ->. destruct u; [congruence|discriminate].
Qed.

(** The scan of [tf.argmin] over finite values: the value at the index it
    returns is at most the initial candidate and at most every scanned value,
    and the index is either the initial one or that of a scanned value. *)
Lemma argmin_from_finite rl : forall best_i b i,
  exists m,
    m <= b
    /\ Forall (fun x => m <= x) rl
    /\ ((argmin_from best_i (Fin b) i (map Fin rl) = best_i /\ m = b)
        \/ ((i <= argmin_from best_i (Fin b) i (map Fin rl) < i + length rl)%nat
            /\ nth (argmin_from best_i (Fin b) i (map Fin rl) - i) rl 0 = m)).
Proof.
  induction rl as [|x rl IH]; intros best_i b i.
  - exists b. split; [lra|]. split; [constructor|]. left. split; reflexivity.
  - cbn [map argmin_from xltb is_nan].
    destruct (Rlt_dec x b) as [Hlt|Hge]; cbn [orb andb].
    + destruct (IH i x (S i)) as (m & Hm & Hall & Hcase).
      exists m. split; [lra|]. split; [constructor; assumption|]. right.
      destruct Hcase as [(-> & ->) | (Hr & Hn)].
      * split; [cbn [length]; lia|]. now rewrite Nat.sub_diag.
      * split; [cbn [length]; lia|]. rewrite <- Hn.
        replace (argmin_from i (Fin x) (S i) (map Fin rl) - i)%nat
          with (S (argmin_from i (Fin x) (S i) (map Fin rl) - S i)) by lia.
        reflexivity.
    + destruct (IH best_i b (S i)) as (m & Hm & Hall & Hcase).
      exists m. split; [lra|]. split; [constructor; [lra|assumption]|].
      destruct Hcase as [(Hr & ->) | (Hr & Hn)].
      * left. split; [exact Hr|reflexivity].
      * right. split; [cbn [length]; lia|]. rewrite <- Hn.
        replace (argmin_from best_i (Fin b) (S i) (map Fin rl) - i)%nat
          with (S (argmin_from best_i (Fin b) (S i) (map Fin rl) - S i)) by lia.
        reflexivity.
Qed.

Lemma argmin_finite rl :
  rl <> [] ->
  exists r,
    argmin (map Fin rl) = Some r
    /\ (r < length rl)%nat
    /\ forall j, (j < length rl)%nat -> nth r rl 0 <= nth j rl 0.
Proof.
  intros Hne. destruct rl as [|x rl]; [congruence|].
  cbn [map argmin].
  destruct (argmin_from_finite rl 0%nat x 1%nat) as (m & Hm & Hall & Hcase).
  eexists. split; [reflexivity|].
  set (r := argmin_from 0 (Fin x) 1 (map Fin rl)) in *.
  assert (Hval : (r < length (x :: rl))%nat /\ nth r (x :: rl) 0 = m).
  { destruct Hcase as [(-> & ->) | (Hr & Hn)].
    - split; [cbn [length]; lia|reflexivity].
    - split; [cbn [length]; lia|].
      replace r with (S (r - 1)) by lia. exact Hn. }
  destruct Hval as (Hr & ->). split; [exact Hr|].
  intros [|j] Hj; cbn [nth]; [exact Hm|].
  rewrite Forall_forall in Hall. apply Hall. apply nth_In.
  cbn [length] in Hj. lia.
Qed.

(** The row of distances the retrieval cell takes its argmin of. *)
Lemma retrieval_distances d q mt mo :
  length q = d -> Forall (fun v => length v = d) mo ->
  rows (pairwise_l2_distance (slice_rows (of_reals d (q :: mt)) 0 1) (of_reals d mo))
  = [map Fin (map (Rsquared_distance q) mo)].
Proof.
  intros Hq Hmo. rewrite pairwise_l2_distance_entrywise.
  unfold pairwise, slice_rows, py_slice, of_reals. cbn [rows map skipn firstn Nat.sub].
  f_equal. rewrite !map_map. apply map_ext_in. intros v Hv.
  apply l2sq_entry_distance. rewrite Forall_forall in Hmo.
  rewrite Hq. symmetry. now apply Hmo.
Qed.

(** The slices taken at the start indices of [range(start, n, step)] tile
    the sequence from [start] to its end. *)
Lemma concat_slices {A} (l : list A) step : (1 <= step)%nat ->
  forall fuel start, (length l - start <= fuel)%nat ->
  concat (map (fun s => py_slice l s (s + step)) (range_aux fuel start (length l) step))
  = skipn start l.
Proof.
  intros Hstep. unfold py_slice.
  induction fuel as [|fuel IH]; intros start Hfuel; cbn [range_aux].
  - cbn [map concat]. symmetry. apply skipn_all2. lia.
  - destruct (Nat.ltb_spec start (length l)) as [Hlt|Hge].
    + cbn [map concat]. rewrite IH by lia.
      replace (start + step - start)%nat with step by lia.
      rewrite (Nat.add_comm start step), <- (skipn_skipn step start l).
      apply firstn_skipn.
    + cbn [map concat]. symmetry. apply skipn_all2. lia.
Qed.

Lemma training_sets_as_app {A} (ds : list A) k :
  training_sets ds k = firstn k ds ++ skipn (k + 1) ds.
Proof.
  unfold training_sets, py_slice. cbn [skipn]. rewrite Nat.sub_0_r. f_equal.
  apply firstn_all2. rewrite length_skipn. lia.
Qed.

Lemma training_sets_cons {A} (x : A) ds k :
  training_sets (x :: ds) (S k) = x :: training_sets ds k.
Proof. rewrite !training_sets_as_app. reflexivity. Qed.

Lemma training_sets_head {A} (x : A) ds : training_sets (x :: ds) 0 = ds.
Proof. rewrite training_sets_as_app. reflexivity. Qed.

(** Signs that survive every operation of the distance branches: an absolute
    value, a sum or a maximum of values that are not below zero is not below
    zero, and so is anything clamped at zero; negated and divided by a positive
    temperature it is not above zero. *)
Lemma never_negative_xabs a : never_negative (xabs a).
Proof. destruct a; simpl; try exact I. apply Rabs_pos. Qed.

Lemma never_negative_xadd a b :
  never_negative a -> never_negative b -> never_negative (xadd a b).
Proof. destruct a, b; simpl; intros; try tauto; lra. Qed.

Lemma never_negative_clamp a : never_negative (xmax a (Fin 0)).
Proof. destruct a; simpl; try exact I; [apply Rmax_r|lra]. Qed.

Lemma never_negative_xmax a b :
  never_negative a -> never_negative b -> never_negative (xmax a b).
Proof.
  destruct a, b; simpl; intros Ha Hb; try tauto.
  eapply Rle_trans; [exact Ha|apply Rmax_l].
Qed.

Lemma never_negative_reduce_sum l :
  Forall never_negative l -> never_negative (reduce_sum l).
Proof.
  unfold reduce_sum. induction 1 as [|a l Ha _ IH]; cbn [fold_right].
  - simpl. lra.
  - now apply never_negative_xadd.
Qed.

Lemma never_negative_reduce_max l :
  l <> [] -> Forall never_negative l -> never_negative (reduce_max l).
Proof.
  unfold reduce_max. induction l as [|a l IH]; [congruence|].
  intros _ H. inversion H as [|? ? Ha Hl]; subst. cbn [fold_right].
  destruct l as [|b l].
  - cbn [fold_right]. destruct a; simpl in *; auto.
  - apply never_negative_xmax; [exact Ha|]. apply IH; [discriminate|exact Hl].
Qed.

Lemma never_positive_negated a :
  never_negative a -> never_positive (xmul (Fin (-1)) a).
Proof.
  destruct a; simpl; intros H; try exact I; try contradiction; [lra|].
  unfold inf_times. destruct (Req_dec_T (-1) 0) as [E|_]; [lra|].
  destruct (Rlt_dec 0 (-1)) as [E|_]; [lra|]. exact I.
Qed.

Lemma never_positive_over t a :
  0 < t -> never_positive a -> never_positive (xdiv a (Fin t)).
Proof.
  intros Ht. destruct a; simpl; intros H; try exact I; try contradiction.
  - destruct (Req_dec_T t 0) as [E|_]; [lra|]. simpl.
    pose proof (Rinv_0_lt_compat t Ht). unfold Rdiv. nra.
  - destruct (Rlt_dec t 0) as [E|_]; [lra|]. exact I.
Qed.

Lemma abs_differences_never_negative u v :
  Forall never_negative (map xabs (map2 xsub u v)).
Proof.
  apply Forall_forall. intros a Ha. apply in_map_iff in Ha.
  destruct Ha as (b & <- & _). apply never_negative_xabs.
Qed.

Lemma similarity_entry_never_positive eps s t u v :
  In s distance_metrics -> 0 < t -> u <> [] -> v <> [] ->
  never_positive (similarity_entry eps s (Fin t) u v).
Proof.
  intros Hs Ht Hu Hv. unfold distance_metrics in Hs. simpl in Hs.
  unfold similarity_entry.
  destruct Hs as [<- | [<- | [<- | []]]]; cbn [String.eqb Ascii.eqb Bool.eqb];
    apply never_positive_over; try exact Ht; apply never_positive_negated.
  - apply never_negative_clamp.
  - apply never_negative_reduce_sum, abs_differences_never_negative.
  - apply never_negative_reduce_max; [|apply abs_differences_never_negative].
    destruct u as [|a u]; [congruence|]. destruct v as [|b v]; [congruence|].
    rewrite map2_cons. discriminate.
Qed.

(** A tensor of one row and one column whose entry is a number. *)
Lemma finite_single_entry t :
  has_shape t 1 1 -> finite_tensor t -> exists x, t = mkT 1 [[Fin x]].
Proof.
  destruct t as [c rws]. unfold has_shape, shape0, well_shaped, finite_tensor.
  cbn [rows ncols]. intros (Hm & -> & Hw) Hf.
  destruct rws as [|row [|? ?]]; try discriminate Hm.
  inversion Hw as [|? ? Hrow _]; subst.
  destruct row as [|a [|? ?]]; try discriminate Hrow.
  inversion Hf as [|? ? Hr _]; subst. inversion Hr as [|? ? (x & ->) _]; subst.
  now exists x.
Qed.

End CoverageLemmas.

Module Coverage.
Import TF ABC Cells.

(** The loss of the training cell does not depend on the order of the two
    stacks: for every metric name, temperature and namespace, swapping them
    gives the same number, or the same exception. *)
Theorem training_loss_symmetric (g : globals) (embs1 embs2 : tensor2)
    (similarity_type : string) (temperature : xreal) :
  training_loss g embs1 embs2 similarity_type temperature
  = training_loss g embs2 embs1 similarity_type temperature.
Proof.
  unfold training_loss. rewrite !align_pair_of_sequences_spec.
  destruct (entry_function g similarity_type temperature) as [f|e];
    cbn [bind]; [|reflexivity].
  now rewrite xadd_comm.
Qed.

(** A single row in the first stack.  For every second stack, metric name,
    temperature and namespace: when the first stack has one row and the two
    similarity computations return, the second with entries that are numbers
    (neither infinite nor NaN), the second similarity is 1 x 1, the
    cross-entropy has a single class, and [align_pair_of_sequences] returns
    exactly 0. *)
Theorem single_row_first_stack_loss (g : globals) (embs1 embs2 : tensor2)
    (similarity_type : string) (temperature : xreal) (sim_12 sim_21 : tensor2) :
  shape0 embs1 = 1%nat ->
  get_scaled_similarity g embs1 embs2 similarity_type temperature = Ok sim_12 ->
  get_scaled_similarity g (matmul (softmax sim_12) embs2) embs1 similarity_type
    temperature = Ok sim_21 ->
  finite_tensor sim_21 ->
  has_shape sim_21 1 1
  /\ align_pair_of_sequences g embs1 embs2 similarity_type temperature = Ok (Fin 0).
Proof.
  intros H1 H12 H21 Hfin.
  pose proof (get_scaled_similarity_shape _ _ _ _ _ _ H12) as (S12 & _).
  pose proof (get_scaled_similarity_shape _ _ _ _ _ _ H21) as S21.
  assert (Hm : shape0 (matmul (softmax sim_12) embs2) = 1%nat).
  { unfold shape0, matmul, softmax in *. cbn [rows]. rewrite !length_map.
    now rewrite S12. }
  rewrite Hm, H1 in S21. split; [exact S21|].
  destruct (finite_single_entry sim_21 S21 Hfin) as (x & ->).
  exact (align_single_class g embs1 embs2 similarity_type temperature sim_12 x
           H1 H12 H21).
Qed.

Lemma single_row_first_stack_loss_witness :
  has_shape
    (pairwise (similarity_entry NaN "l1" (Fin 1))
       (matmul (softmax (pairwise (similarity_entry NaN "l1" (Fin 1))
                           (of_reals 2 [[0; 1]]) (of_reals 2 [[3; 4]; [1; 1]])))
               (of_reals 2 [[3; 4]; [1; 1]]))
       (of_reals 2 [[0; 1]])) 1 1
  /\ align_pair_of_sequences notebook_globals (of_reals 2 [[0; 1]])
       (of_reals 2 [[3; 4]; [1; 1]]) "l1" (Fin 1) = Ok (Fin 0).
Proof.
  assert (Hs : In "l1"%string eps_free_metrics)
    by (unfold eps_free_metrics; simpl; tauto).
  assert (Hreg : forall m, Forall (fun u => length u = 2%nat) m ->
                   regular_stack "l1" 2 m)
    by (intros m Hm; repeat split; [exact Hm | discriminate | discriminate]).
  apply (single_row_first_stack_loss notebook_globals (of_reals 2 [[0; 1]])
           (of_reals 2 [[3; 4]; [1; 1]]) "l1" (Fin 1)
           (pairwise (similarity_entry NaN "l1" (Fin 1))
              (of_reals 2 [[0; 1]]) (of_reals 2 [[3; 4]; [1; 1]]))).
  - reflexivity.
  - now apply get_scaled_similarity_eps_free.
  - now apply get_scaled_similarity_eps_free.
  - destruct (soft_neighbours_finite NaN "l1" 1 2 [[0; 1]] [[3; 4]; [1; 1]])
      as (nn & -> & _ & Hnn);
      [exact Hs | lra | discriminate
       | apply Hreg; repeat constructor | apply Hreg; repeat constructor |].
    apply pairwise_entries. intros u v Hu Hv.
    apply in_rows_of_reals in Hu, Hv.
    destruct Hu as (ru & -> & _), Hv as (rv & -> & _).
    apply similarity_entry_finite; [exact Hs | lra |].
    split; discriminate.
Defined.

(** The diagonal of the Manhattan and Chebyshev self-similarity.  For the
    metrics l1 and linf, a positive temperature and a finite stack of rows of
    one positive length, the similarity of the stack with itself is returned
    and every diagonal entry of it is exactly 0: the coordinate differences
    of a row with itself are all 0, and so are their sum, their maximum and
    the quotient by the temperature. *)
Theorem l1_linf_self_similarity_diagonal (g : globals) (similarity_type : string)
    (t : R) (d : nat) (embs : list (list R)) (i : nat) :
  similarity_type = "l1"%string \/ similarity_type = "linf"%string ->
  0 < t ->
  (1 <= d)%nat ->
  Forall (fun u => length u = d) embs ->
  (i < length embs)%nat ->
  exists sim,
    get_scaled_similarity g (of_reals d embs) (of_reals d embs)
      similarity_type (Fin t) = Ok sim
    /\ entry sim i i = Fin 0.
Proof.
  intros Hs Ht Hd Hlen Hi.
  assert (Hdist : In similarity_type distance_metrics)
    by (unfold distance_metrics; destruct Hs as [-> | ->]; simpl; tauto).
  rewrite (get_scaled_similarity_eps_free g _ _ _ _ NaN
             (distance_metric_eps_free _ Hdist)).
  eexists. split; [reflexivity|].
  rewrite entry_pairwise by (rewrite shape0_of_reals; assumption).
  rewrite !nth_of_reals.
  rewrite similarity_entry_distance; try assumption.
  - rewrite Rdistance_self. f_equal. field. lra.
  - lra.
  - reflexivity.
  - intros _ E. rewrite Forall_forall in Hlen.
    specialize (Hlen _ (nth_In embs [] Hi)). rewrite E in Hlen.
    cbn [length] in Hlen. lia.
Qed.

Lemma l1_linf_self_similarity_diagonal_witness :
  exists sim,
    get_scaled_similarity notebook_globals (of_reals 2 [[3; 4]; [0; 2]])
      (of_reals 2 [[3; 4]; [0; 2]]) "linf" (Fin 2) = Ok sim
    /\ entry sim 1 1 = Fin 0.
Proof.
  apply (l1_linf_self_similarity_diagonal notebook_globals "linf" 2 2
           [[3; 4]; [0; 2]] 1).
  - now right.
  - lra.
  - lia.
  - repeat constructor.
  - simpl. lia.
Defined.

(** A similarity derived from a distance is never positive.  For the metrics
    l2sq, l1 and linf, a positive temperature and two stacks of one positive
    column count, whatever their entries (infinities and NaN included),
    [get_scaled_similarity] returns a matrix of shape m x n none of whose
    entries is above zero: each is a non-positive number, -inf or NaN. *)
Theorem similarity_never_positive (g : globals) (embs1 embs2 : tensor2)
    (similarity_type : string) (t : R) :
  In similarity_type distance_metrics ->
  0 < t ->
  well_shaped embs1 ->
  well_shaped embs2 ->
  ncols embs1 = ncols embs2 ->
  (1 <= ncols embs1)%nat ->
  exists sim,
    get_scaled_similarity g embs1 embs2 similarity_type (Fin t) = Ok sim
    /\ has_shape sim (shape0 embs1) (shape0 embs2)
    /\ Forall (Forall never_positive) (rows sim).
Proof.
  intros Hs Ht W1 W2 Hc Hd.
  rewrite (get_scaled_similarity_eps_free g _ _ _ _ NaN
             (distance_metric_eps_free _ Hs)).
  eexists. split; [reflexivity|]. split; [apply pairwise_shape|].
  apply pairwise_entries. intros u v Hu Hv.
  unfold well_shaped in W1, W2. rewrite Forall_forall in W1, W2.
  specialize (W1 _ Hu). specialize (W2 _ Hv).
  apply similarity_entry_never_positive; try assumption.
  - intros ->. cbn [length] in W1. lia.
  - intros ->. cbn [length] in W2. lia.
Qed.

Lemma similarity_never_positive_witness :
  exists sim,
    get_scaled_similarity notebook_globals (mkT 2 [[Fin 0; PInf]; [Fin 1; Fin 0]])
      (mkT 2 [[Fin 0; Fin 1]]) "linf" (Fin 2) = Ok sim
    /\ has_shape sim 2 1
    /\ Forall (Forall never_positive) (rows sim).
Proof.
  apply (similarity_never_positive notebook_globals
           (mkT 2 [[Fin 0; PInf]; [Fin 1; Fin 0]]) (mkT 2 [[Fin 0; Fin 1]]) "linf" 2).
  - unfold distance_metrics. simpl. tauto.
  - lra.
  - unfold well_shaped. cbn [rows ncols]. repeat constructor.
  - unfold well_shaped. cbn [rows ncols]. repeat constructor.
  - reflexivity.
  - cbn [ncols]. lia.
Defined.

(** The retrieval cell returns a least computed distance.  When the row of
    squared distances the cell computes, from the first embedding of the
    template stack to the candidates, holds numbers only and there is at least
    one candidate, [min_ind] is an index of the candidate stack and no entry
    of that row is below the entry it designates. *)
Theorem min_ind_least_computed_distance (template other : tensor2) (dl : list R)
    (rest : list (list xreal)) :
  rows (pairwise_l2_distance (slice_rows template 0 1) other) = map Fin dl :: rest ->
  (1 <= shape0 other)%nat ->
  exists r,
    min_ind template other = Some r
    /\ (r < shape0 other)%nat
    /\ forall j, (j < shape0 other)%nat -> nth r dl 0 <= nth j dl 0.
Proof.
  intros Hrows Hne.
  assert (Hlen : length dl = shape0 other).
  { destruct (pairwise_shape l2sq_entry (slice_rows template 0 1) other)
      as (_ & Hc & Hw).
    rewrite <- pairwise_l2_distance_entrywise in Hc, Hw.
    unfold well_shaped in Hw. rewrite Hrows, Hc in Hw.
    inversion Hw as [|? ? Hrow _]; subst. now rewrite length_map in Hrow. }
  unfold min_ind. rewrite Hrows.
  destruct (argmin_finite dl) as (r & Hr & Hlt & Hmin).
  { intros ->. cbn [length] in Hlen. lia. }
  rewrite Hlen in *. now exists r.
Qed.

Lemma min_ind_least_computed_distance_witness :
  exists r,
    min_ind (of_reals 2 [[0; 0]; [5; 5]]) (of_reals 2 [[3; 4]; [1; 0]]) = Some r
    /\ (r < 2)%nat
    /\ forall j, (j < 2)%nat ->
         nth r (map (Rsquared_distance [0; 0]) [[3; 4]; [1; 0]]) 0
         <= nth j (map (Rsquared_distance [0; 0]) [[3; 4]; [1; 0]]) 0.
Proof.
  apply (min_ind_least_computed_distance (of_reals 2 [[0; 0]; [5; 5]])
           (of_reals 2 [[3; 4]; [1; 0]])
           (map (Rsquared_distance [0; 0]) [[3; 4]; [1; 0]]) []).
  - apply (retrieval_distances 2 [0; 0] [[5; 5]] [[3; 4]; [1; 0]]).
    + reflexivity.
    + repeat constructor.
  - unfold shape0, of_reals. cbn [rows map length]. lia.
Defined.

(** The embedding loop of [display_pca_embs] embeds every image once and in
    order.  If the model treats the images of a batch one by one, then for a
    positive stack size and at least one image the concatenated result is the
    list of the embeddings of all the images, also when the last slice is
    shorter than the stack size; with a stack size of 0 ([range] with a zero
    step) or with no image ([tf.concat] of no tensor) the loop raises. *)
Theorem embs_intermed_embeds_all {I E : Type} (embed : I -> E)
    (model : list I -> list E) (plot_imgs : list I) (stack_size : nat) :
  (forall batch, model batch = map embed batch) ->
  ((1 <= stack_size)%nat -> plot_imgs <> [] ->
   embs_intermed model plot_imgs stack_size = Some (map embed plot_imgs))
  /\ embs_intermed model plot_imgs 0 = None
  /\ embs_intermed model [] stack_size = None.
Proof.
  intros Hmodel. split; [|split].
  - intros Hstep Hne. unfold embs_intermed, py_range.
    destruct (Nat.eqb_spec stack_size 0) as [E0|_]; [lia|].
    assert (Hcat : concat (map (fun start_ind =>
                      model (py_slice plot_imgs start_ind (start_ind + stack_size)))
                      (range_aux (length plot_imgs) 0 (length plot_imgs) stack_size))
                   = map embed plot_imgs).
    { rewrite (map_ext _ (fun s => map embed (py_slice plot_imgs s (s + stack_size))))
        by (intros s; apply Hmodel).
      rewrite <- (map_map (fun s => py_slice plot_imgs s (s + stack_size)) (map embed)).
      rewrite <- concat_map. f_equal.
      rewrite (concat_slices plot_imgs stack_size Hstep) by lia. reflexivity. }
    destruct plot_imgs as [|x l]; [congruence|].
    cbn [length range_aux Nat.ltb Nat.leb] in *. cbn [map tf_concat] in *.
    now rewrite Hcat.
  - reflexivity.
  - unfold embs_intermed, py_range. now destruct (stack_size =? 0)%nat.
Qed.

Lemma embs_intermed_embeds_all_witness :
  (((1 <= 2)%nat -> [1; 2; 3]%nat <> [] ->
    embs_intermed (map S) [1; 2; 3]%nat 2 = Some (map S [1; 2; 3]%nat))
   /\ embs_intermed (map S) [1; 2; 3]%nat 0 = None
   /\ embs_intermed (map S) [] 2 = None).
Proof.
  apply (embs_intermed_embeds_all S (map S) [1; 2; 3]%nat 2).
  intros batch. reflexivity.
Defined.

(** The training sets leave out the test digit and nothing else.  For a test
    digit that indexes the list of per-digit data sets, the training sets are
    one fewer, set j of them is data set j below the test digit and data set
    j + 1 from it on, and, the data sets being distinct, the data set of the
    test digit is not among them; a test digit past the end of the list leaves
    nothing out. *)
Theorem training_sets_hold_out {A : Type} (ds : list A) (test_digit : nat) (dflt : A) :
  ((test_digit < length ds)%nat ->
     length (training_sets ds test_digit) = (length ds - 1)%nat
     /\ (forall j, nth j (training_sets ds test_digit) dflt
                   = nth (if (j <? test_digit)%nat then j else S j) ds dflt)
     /\ (NoDup ds -> ~ In (nth test_digit ds dflt) (training_sets ds test_digit)))
  /\ ((length ds <= test_digit)%nat -> training_sets ds test_digit = ds).
Proof.
  split.
  - revert test_digit. induction ds as [|x ds IH]; intros k Hk;
      [cbn [length] in Hk; lia|].
    destruct k as [|k].
    + rewrite training_sets_head. cbn [length nth]. split; [lia|]. split.
      * intros j. reflexivity.
      * intros Hnd. now inversion Hnd.
    + rewrite training_sets_cons. cbn [length] in Hk.
      destruct (IH k ltac:(lia)) as (Hlen & Hnth & Hnot).
      cbn [length nth]. split; [rewrite Hlen; lia|]. split.
      * intros [|j]; [reflexivity|]. cbn [nth]. rewrite Hnth.
        change (S j <? S k)%nat with (j <? k)%nat.
        now destruct (j <? k)%nat.
      * intros Hnd. inversion Hnd as [|? ? Hx Hnd']; subst.
        intros [Heq|Hin].
        -- apply Hx. rewrite Heq. apply nth_In. lia.
        -- now apply (Hnot Hnd').
  - intros Hk. rewrite training_sets_as_app.
    rewrite firstn_all2 by exact Hk. rewrite skipn_all2 by lia. apply app_nil_r.
Qed.

(** An empty second stack raises nothing.  For the metrics l2sq, l1, linf
    and cosine and every temperature, with a second stack of no row the soft
    assignment has empty rows and every soft nearest neighbour is the zero
    vector, whatever the first stack. *)
Theorem nn_embs_empty_second_stack (g : globals) (d : nat) (embs : tensor2)
    (similarity_type : string) (temperature : xreal) :
  In similarity_type eps_free_metrics ->
  softmaxed_sim_12 g embs (mkT d []) similarity_type temperature
    = Ok (mkT 0 (map (fun _ => []) (rows embs)))
  /\ nn_embs g embs (mkT d []) similarity_type temperature
     = Ok (mkT d (map (fun _ => repeat (Fin 0) d) (rows embs))).
Proof.
  intros Hs. unfold nn_embs, softmaxed_sim_12.
  rewrite (get_scaled_similarity_eps_free g _ _ _ _ NaN Hs). cbn [bind].
  unfold matmul, softmax, pairwise, column, shape0. cbn [rows ncols map length].
  split.
  - do 2 f_equal. rewrite !map_map. apply map_ext. intros u. reflexivity.
  - do 2 f_equal. rewrite !map_map. apply map_ext. intros u.
    cbn [map]. apply map_const_seq.
Qed.

Lemma nn_embs_empty_second_stack_witness :
  softmaxed_sim_12 notebook_globals (of_reals 2 [[0; 1]]) (mkT 2 []) "l2sq" (Fin 1)
    = Ok (mkT 0 (map (fun _ => []) (rows (of_reals 2 [[0; 1]]))))
  /\ nn_embs notebook_globals (of_reals 2 [[0; 1]]) (mkT 2 []) "l2sq" (Fin 1)
     = Ok (mkT 2 (map (fun _ => repeat (Fin 0) 2) (rows (of_reals 2 [[0; 1]])))).
Proof.
  apply (nn_embs_empty_second_stack notebook_globals 2 (of_reals 2 [[0; 1]])
           "l2sq" (Fin 1)).
  unfold eps_free_metrics. simpl. tauto.
Defined.

End Coverage.
